(** * unmute-ros: the websocket bridge between the laptop and Unmute

    A shallow embedding of [src/unmute/unmute_ros_bridge_client.py] and the
    properties of its relay that the specification states.

    The bridge is a Python [asyncio] program.  Its pure part (decoding a
    frame, testing the [type] field, building the outbound dictionary) is
    embedded as functions over JSON values; its effects (sending on a
    websocket, logging, sleeping, raising and catching exceptions) live in
    a small state-and-exception monad over a [world] that records the two
    connections and the trace of what the program did.  What the network
    does (frames arriving, connections closing, handshakes failing) is an
    explicit script given to the program. *)

From Stdlib Require Import ZArith String List PrimFloat.
From stdpp Require Import gmap strings list fin_maps.

#[local] Set Warnings "-register-all".
#[local] Open Scope string_scope.
#[local] Open Scope Z_scope.
#[local] Open Scope list_scope.

(** ** Python values and exceptions *)

Module Py.

(** What [json.loads] returns: [None], [bool], [int], [float], [str],
    [list] and [dict] with string keys (a repeated key keeps its last
    value, so a dictionary is a finite map). *)
Inductive value : Type :=
| VNone
| VBool (b : bool)
| VInt (n : Z)
| VFloat (x : float)
| VStr (s : string)
| VList (items : list value)
| VDict (fields : gmap string value).

Abbreviation dict := (gmap string value).

(** The exceptions the bridge can meet.  All of them derive from
    [Exception], so every [except Exception] clause catches each of them.
    ([BaseException]s such as [CancelledError] and [KeyboardInterrupt],
    the external shutdown, are not part of the model.) *)
Inductive exn : Type :=
| JSONDecodeError                 (* json.loads on a frame that is not JSON *)
| AttributeError (attr : string)  (* e.g. 'list' object has no attribute 'get' *)
| TypeError
| KeyError (key : string)         (* d[key] on a missing key *)
| ConnectionClosedOK              (* websockets: closed with a normal close code *)
| ConnectionClosedError           (* websockets: closed abnormally *)
| OSError                         (* connect: host unreachable, refused, ... *)
| InvalidHandshake                (* connect: handshake or subprotocol rejected *)
| TimeoutError.                   (* connect: handshake timed out *)

(** How a computation ends: with a value, with an exception, or not at
    all because it awaits an input the script of the network does not
    contain ([Blocked]). *)
Inductive outcome (A : Type) : Type :=
| Done (a : A)
| Raised (e : exn)
| Blocked.
Arguments Done {A} a.
Arguments Raised {A} e.
Arguments Blocked {A}.

(** A frame on the wire, represented by what [json.loads] makes of it:
    either text it rejects, or the value it decodes to. *)
Inductive message : Type :=
| Undecodable (raw : string)
| Json (v : value).

Definition json_loads (m : message) : outcome value :=
  match m with
  | Undecodable _ => Raised JSONDecodeError
  | Json v => Done v
  end.

(** [json.dumps] is total on the values [json.loads] produces, and the
    frame it writes decodes back to the same value. *)
Definition json_dumps (v : value) : message := Json v.

(** [data.get(key)]: only a [dict] has the method; a missing key gives
    [None]. *)
Definition get (data : value) (key : string) : outcome value :=
  match data with
  | VDict d => Done (default VNone (d !! key))
  | _ => Raised (AttributeError "get")
  end.

(** [data[key]] with a string key. *)
Definition getitem (data : value) (key : string) : outcome value :=
  match data with
  | VDict d =>
      match d !! key with
      | Some v => Done v
      | None => Raised (KeyError key)
      end
  | _ => Raised TypeError
  end.

(** [v == "literal"]: true only for a [str] with the same characters. *)
Definition eq_str (v : value) (literal : string) : bool :=
  match v with
  | VStr s => bool_decide (s = literal)
  | _ => false
  end.

Definition fields_of (v : value) : dict :=
  match v with
  | VDict d => d
  | _ => ∅
  end.

End Py.
Export Py.

(** ** The runtime: connections, the trace, and the monad *)

Module Runtime.

(** The two endpoints of the bridge. *)
Inductive side : Type := Laptop | Unmute.

(** How a connection was closed: with a normal close code (iteration
    over the websocket then just stops, and [send] raises
    [ConnectionClosedOK]) or abnormally (iteration and [send] raise
    [ConnectionClosedError]). *)
Inductive closing : Type := Normal | Abnormal.

Inductive conn : Type :=
| Open
| Closed (how : closing).

(** What the program does, in the order it does it. *)
Inductive event : Type :=
| Connect (s : side)                                   (* websockets.connect(...) *)
| Close (s : side)                                     (* leaving [async with] *)
| Send (dst : side) (frame : message) (accepted : bool) (* await ws.send(frame) *)
| LogInfo (text : string)
| LogError (text : string) (e : exn)
| Sleep (seconds : Z).                                 (* await asyncio.sleep(seconds) *)

Record world : Type := World {
  laptop_ws : conn;
  unmute_ws : conn;
  now : Z;               (* seconds slept so far: a lower bound on the clock *)
  trace : list event
}.

Definition conn_of (s : side) (w : world) : conn :=
  match s with
  | Laptop => laptop_ws w
  | Unmute => unmute_ws w
  end.

Definition set_conn (s : side) (c : conn) (w : world) : world :=
  match s with
  | Laptop => World c (unmute_ws w) (now w) (trace w)
  | Unmute => World (laptop_ws w) c (now w) (trace w)
  end.

Definition record (e : event) (w : world) : world :=
  World (laptop_ws w) (unmute_ws w) (now w) (trace w ++ [e]).

Definition M (A : Type) : Type := world -> outcome A * world.

Definition ret {A} (a : A) : M A := fun w => (Done a, w).

Definition lift {A} (o : outcome A) : M A := fun w => (o, w).

Definition raise {A} (e : exn) : M A := lift (Raised e).

Definition bind {A B} (m : M A) (k : A -> M B) : M B :=
  fun w =>
    match m w with
    | (Done a, w') => k a w'
    | (Raised e, w') => (Raised e, w')
    | (Blocked, w') => (Blocked, w')
    end.

(** [try: body / except Exception as e: handler(e)] *)
Definition try_except {A} (body : M A) (handler : exn -> M A) : M A :=
  fun w =>
    match body w with
    | (Raised e, w') => handler e w'
    | r => r
    end.

(** Leaving a [with] block: [cleanup] runs however [body] ends, and the
    outcome of [body] stands once [cleanup] has completed.  A body that
    never ends never reaches it. *)
Definition finally {A B} (body : M A) (cleanup : M B) : M A :=
  fun w =>
    match body w with
    | (Blocked, w') => (Blocked, w')
    | (r, w') =>
        match cleanup w' with
        | (Done _, w'') => (r, w'')
        | (Raised e, w'') => (Raised e, w'')
        | (Blocked, w'') => (Blocked, w'')
        end
    end.

Definition emit (e : event) : M unit := fun w => (Done tt, record e w).

(** [await ws.send(frame)]: accepted by an open connection, refused
    with [ConnectionClosed] by a closed one. *)
Definition send (dst : side) (frame : message) : M unit :=
  fun w =>
    match conn_of dst w with
    | Open => (Done tt, record (Send dst frame true) w)
    | Closed Normal => (Raised ConnectionClosedOK, record (Send dst frame false) w)
    | Closed Abnormal => (Raised ConnectionClosedError, record (Send dst frame false) w)
    end.

(** [await asyncio.sleep(seconds)] *)
Definition sleep (seconds : Z) : M unit :=
  fun w =>
    (Done tt,
     World (laptop_ws w) (unmute_ws w) (now w + seconds) (trace w ++ [Sleep seconds])).

(** The connection [s] closes in the manner [how]; closing a closed
    connection changes nothing. *)
Definition hang_up (s : side) (how : closing) (w : world) : world :=
  match conn_of s w with
  | Open => set_conn s (Closed how) w
  | Closed _ => w
  end.

End Runtime.
Export Runtime.

Declare Scope bridge_scope.
Delimit Scope bridge_scope with bridge.
Notation "x <- c1 ;; c2" := (bind c1 (fun x => c2))
  (at level 100, c1 at next level, c2 at level 200, right associativity) : bridge_scope.
Notation "c1 ;; c2" := (bind c1 (fun _ => c2))
  (at level 100, c2 at level 200, right associativity) : bridge_scope.
#[local] Open Scope bridge_scope.

(** ** The bridge *)

Module Bridge.

(** *** The two forwarding coroutines *)

(** The body of the loop of [forward_audio_to_unmute] (lines 28-40):
    the [try] block and its [except Exception] clause. *)
Definition forward_audio_body (message : message) : M unit :=
  try_except
    (data <- lift (json_loads message);;
     type <- lift (get data "type");;
     if eq_str type "audio" then
       audio <- lift (getitem data "data");;
       let unmute_msg :=
         VDict {[ "type" := VStr "unmute.input_audio_buffer.append_pcm";
                  "audio" := audio;
                  "format" := VStr "int16" ]} in
       send Unmute (json_dumps unmute_msg)
     else ret tt)
    (fun e => emit (LogError "Error forwarding audio: " e)).

(** The body of the loop of [forward_response_to_laptop] (lines 45-70). *)
Definition forward_response_body (message : message) : M unit :=
  try_except
    (data <- lift (json_loads message);;
     msg_type <- lift (get data "type");;
     if eq_str msg_type "response.audio.delta" then
       delta <- lift (getitem data "delta");;
       let payload :=
         VDict {[ "type" := VStr "robot.voice_audio";
                  "audio" := delta ]} in
       send Laptop (json_dumps payload)
     else if eq_str msg_type "response.text.delta" then
       delta <- lift (getitem data "delta");;
       let payload :=
         VDict {[ "type" := VStr "robot.text";
                  "text" := delta ]} in
       send Laptop (json_dumps payload)
     else ret tt)
    (fun e => emit (LogError "Error forwarding response: " e)).

(** What the pending [recv()] behind [async for message in ws] completes
    with: the next frame, or the end of the connection. *)
Inductive recv : Type :=
| Frame (m : message)
| EndOfStream (how : closing).

(** The state of a coroutine run as a task. *)
Inductive task : Type :=
| Running
| Returned
| Failed (e : exn).

(** [async for message in ws: body(message)], resumed once.  The
    iterator of a websocket stops on a normal close and raises
    [ConnectionClosedError] on an abnormal one; the loop statement is
    outside every [try], so that exception leaves the coroutine. *)
Definition async_for (body : message -> M unit) (r : recv) : M task :=
  match r with
  | Frame m => body m;; ret Running
  | EndOfStream Normal => ret Returned
  | EndOfStream Abnormal => ret (Failed ConnectionClosedError)
  end.

(** [forward_audio_to_unmute] (lines 26-40), the coroutine that reads
    [laptop_ws], as what it does each time its [recv()] completes. *)
Definition forward_audio_to_unmute : recv -> M task :=
  async_for forward_audio_body.

(** [forward_response_to_laptop] (lines 43-70), the coroutine that reads
    [unmute_ws]. *)
Definition forward_response_to_laptop : recv -> M task :=
  async_for forward_response_body.

(** One coroutine run alone against the successive results of its
    [recv()]; [Running] at the end of the list means it awaits more. *)
Fixpoint run (coroutine : recv -> M task) (inbound : list recv) : M task :=
  match inbound with
  | [] => ret Running
  | r :: rest =>
      t <- coroutine r;;
      match t with
      | Running => run coroutine rest
      | _ => ret t
      end
  end.

(** *** The session: [asyncio.gather] over the two coroutines *)

(** What the network does during a session.  A frame is an input only
    if the iterator of the connection yields it: a frame that the
    [websockets] library itself refuses (one over [max_size], which
    [websockets.connect] leaves at its default of 1 MiB on lines 18 and
    22) makes the library fail the connection, and is the abnormal end
    of that connection here. *)
Inductive input : Type :=
| Deliver (src : side) (m : message)    (* the next frame read from [src] *)
| HangUp (s : side) (how : closing).    (* the connection [s] closes *)

Record session : Type := Session {
  audio : task;        (* forward_audio_to_unmute(), reading laptop_ws *)
  response : task      (* forward_response_to_laptop(), reading unmute_ws *)
}.

Definition resume_audio (ss : session) (r : recv) : M session :=
  match audio ss with
  | Running => t <- forward_audio_to_unmute r;; ret (Session t (response ss))
  | _ => ret ss
  end.

Definition resume_response (ss : session) (r : recv) : M session :=
  match response ss with
  | Running => t <- forward_response_to_laptop r;; ret (Session (audio ss) t)
  | _ => ret ss
  end.

Definition resume (reader : side) (ss : session) (r : recv) : M session :=
  match reader with
  | Laptop => resume_audio ss r
  | Unmute => resume_response ss r
  end.

(** One input of the network: the coroutine that reads the connection
    concerned is resumed, if it still runs. *)
Definition session_step (ss : session) (i : input) : M session :=
  match i with
  | Deliver src m => resume src ss (Frame m)
  | HangUp s how => (fun w => (Done tt, hang_up s how w));; resume s ss (EndOfStream how)
  end.

(** [await asyncio.gather(a, b)] with the default
    [return_exceptions=False] (lines 73-76): it returns when both tasks
    have returned, and raises as soon as one of them has raised; a task
    that returns while the other runs leaves it waiting.  [gather] does
    not cancel the other task. *)
Definition gather_result (ss : session) : option (outcome unit) :=
  match audio ss, response ss with
  | Failed e, _ => Some (Raised e)
  | _, Failed e => Some (Raised e)
  | Returned, Returned => Some (Done tt)
  | _, _ => None
  end.

(** The session run against what the network does, one input at a time:
    the two coroutines interleave at their [recv()]. *)
Fixpoint gather (ss : session) (traffic : list input) : M unit :=
  match gather_result ss with
  | Some r => lift r
  | None =>
      match traffic with
      | [] => lift Blocked
      | i :: rest => ss' <- session_step ss i;; gather ss' rest
      end
  end.

(** *** The supervisor: [run_bridge] *)

Definition LAPTOP_WS_URL : string := "ws://10.2.4.46:8090".
Definition UNMUTE_WS_URL : string := "ws://127.0.0.1:80/api/v1/realtime".

(** [websockets.connect(url)]: [handshake] is the exception it raises,
    if it fails. *)
Definition connect (s : side) (handshake : option exn) : M unit :=
  emit (Connect s);;
  match handshake with
  | Some e => raise e
  | None => fun w => (Done tt, set_conn s Open w)
  end.

(** What the network does during one pass of the [while True] loop:
    the two handshakes, then the inputs of the session, those that come
    after [gather] has completed included. *)
Record attempt : Type := Attempt {
  laptop_handshake : option exn;
  unmute_handshake : option exn;
  traffic : list input
}.

(** *** Leaving the two [async with] blocks *)

(** [close()] of a connection that no task reads; it is idempotent. *)
Definition close (s : side) (w : world) : world :=
  hang_up s Normal (record (Close s) w).

(** How a task ends with its connection.  [asyncio.gather] cancels
    nothing: when it raises because one task has raised, the other task
    stays scheduled, and while [run_bridge] leaves the two [async with]
    blocks and awaits [close()] in each [__aexit__], that task still
    takes the frames of its connection and still calls [send], until its
    own connection ends. *)
Definition stopped (how : closing) : task :=
  match how with
  | Normal => Returned
  | Abnormal => Failed ConnectionClosedError
  end.

(** The tasks after one input: a frame ends no task, the end of a
    connection ends the task that reads it. *)
Definition tasks_after (ss : session) (i : input) : session :=
  match i with
  | Deliver _ _ => ss
  | HangUp Laptop how =>
      match audio ss with
      | Running => Session (stopped how) (response ss)
      | _ => ss
      end
  | HangUp Unmute how =>
      match response ss with
      | Running => Session (audio ss) (stopped how)
      | _ => ss
      end
  end.

(** The tasks, and the traffic not read yet, when [gather] completes. *)
Fixpoint unread (ss : session) (traffic : list input) : session * list input :=
  match gather_result ss with
  | Some _ => (ss, traffic)
  | None =>
      match traffic with
      | [] => (ss, [])
      | i :: rest => unread (tasks_after ss i) rest
      end
  end.

(** Whether the input is the end of the connection [s]. *)
Definition ends (s : side) (i : input) : bool :=
  match i, s with
  | HangUp Laptop _, Laptop | HangUp Unmute _, Unmute => true
  | _, _ => false
  end.

(** The closing handshake of the open connection [s]: [close()] has
    sent its close frame and waits for the end of the connection.  Until
    then the network goes on and the tasks that still run are resumed as
    in the session.  At the end of the script the peer answers and the
    connection closes normally. *)
Fixpoint closing_handshake (s : side) (ss : session) (traffic : list input)
  : M (session * list input) :=
  match traffic with
  | [] => ss' <- session_step ss (HangUp s Normal);; ret (ss', [])
  | i :: rest =>
      ss' <- session_step ss i;;
      if ends s i then ret (ss', rest) else closing_handshake s ss' rest
  end.

(** [__aexit__] of the connection [s], that is [await ws.close()], with
    the tasks and the traffic in [st]; on a connection that is closed
    already [close()] returns at once. *)
Definition aexit (s : side) (st : session * list input) : M (session * list input) :=
  emit (Close s);;
  fun w =>
    match conn_of s w with
    | Open => closing_handshake s st.1 st.2 w
    | Closed _ => (Done st, w)
    end.

(** The way out of the two blocks once [gather] has completed: Unmute's
    block is left first, then the laptop's. *)
Definition leave_session (traffic : list input) : M unit :=
  st <- aexit Unmute (unread (Session Running Running) traffic);;
  aexit Laptop st;;
  ret tt.

(** The [try] block of [run_bridge] (lines 17-76), with its two
    [async with] statements written out: connect to the laptop (line
    18), then to Unmute (line 22), then relay until [gather] completes
    (lines 73-76), and leave Unmute's block and then the laptop's,
    however [gather] has ended.  When the laptop refuses the handshake
    no block has been entered; when Unmute refuses it no task has been
    started, and only the laptop's block is left. *)
Definition connect_and_relay (a : attempt) : M unit :=
  emit (LogInfo ("Connecting to Laptop at " +:+ LAPTOP_WS_URL +:+ "..."));;
  connect Laptop (laptop_handshake a);;
  emit (LogInfo "Connected to Laptop!");;
  emit (LogInfo ("Connecting to Unmute at " +:+ UNMUTE_WS_URL +:+ "..."));;
  try_except (connect Unmute (unmute_handshake a))
             (fun e w => (Raised e, close Laptop w));;
  emit (LogInfo "Connected to Unmute! Bridge is active.");;
  finally (gather (Session Running Running) (traffic a))
          (leave_session (traffic a)).

(** The [except Exception] clause of [run_bridge] (lines 78-81). *)
Definition retry_later (e : exn) : M unit :=
  emit (LogError "Bridge connection error: " e);;
  emit (LogInfo "Retrying in 3 seconds...");;
  sleep 3.

(** One pass of the [while True] loop of [run_bridge] (lines 16-81). *)
Definition iteration (a : attempt) : M unit :=
  try_except (connect_and_relay a) retry_later.

(** [run_bridge]: the loop has no exit; at the end of the script it
    awaits the next connection attempt. *)
Fixpoint run_bridge (script : list attempt) : M unit :=
  match script with
  | [] => lift Blocked
  | a :: rest => iteration a;; run_bridge rest
  end.

(** The world before [run_bridge] starts: no connection, empty trace. *)
Definition boot : world := World (Closed Normal) (Closed Normal) 0 [].

End Bridge.
Export Bridge.

(** ** The translator of the specification *)

Module MessageTranslator.

(** The result of translating one envelope: one outbound envelope, no
    output, or a required source field that is missing. *)
Inductive translation : Type :=
| Outbound (env : dict)
| Drop
| TranslationError (missing : string).

Definition type_is (env : dict) (name : string) : bool :=
  match env !! "type" with
  | Some (VStr s) => bool_decide (s = name)
  | _ => false
  end.

(** The table of the specification, row by row; [from] is the side the
    envelope comes from ([Laptop] is the robot side, [Unmute] the speech
    side). *)
Definition translate (from : side) (env : dict) : translation :=
  match from with
  | Laptop =>
      if type_is env "audio" then
        match env !! "data" with
        | Some x =>
            Outbound {[ "type" := VStr "unmute.input_audio_buffer.append_pcm";
                        "audio" := x;
                        "format" := VStr "int16" ]}
        | None => TranslationError "data"
        end
      else Drop
  | Unmute =>
      if type_is env "response.audio.delta" then
        match env !! "delta" with
        | Some y => Outbound {[ "type" := VStr "robot.voice_audio"; "audio" := y ]}
        | None => TranslationError "delta"
        end
      else if type_is env "response.text.delta" then
        match env !! "delta" with
        | Some z => Outbound {[ "type" := VStr "robot.text"; "text" := z ]}
        | None => TranslationError "delta"
        end
      else Drop
  end.

Definition destination (from : side) : side :=
  match from with
  | Laptop => Unmute
  | Unmute => Laptop
  end.

(** What the relay hands to [send] for a frame read from [from]. *)
Definition forwarded (from : side) (m : message) : option (side * message) :=
  match m with
  | Json (VDict env) =>
      match translate from env with
      | Outbound out => Some (destination from, Json (VDict out))
      | _ => None
      end
  | _ => None
  end.

End MessageTranslator.
Export MessageTranslator.

(** ** Observing a run *)

Module Observe.

(** The events a computation appends to the trace. *)
Definition effects {A} (m : M A) (w : world) : list event :=
  drop (length (trace w)) (trace (snd (m w))).

Definition call (e : event) : option (side * message) :=
  match e with
  | Send dst frame _ => Some (dst, frame)
  | _ => None
  end.

(** The calls of [send], in order, whether accepted or refused. *)
Definition calls (evs : list event) : list (side * message) := omap call evs.

(** The coroutine that reads [from], its body and the text it logs. *)
Definition body_of (from : side) : message -> M unit :=
  match from with
  | Laptop => forward_audio_body
  | Unmute => forward_response_body
  end.

Definition coroutine_of (from : side) : recv -> M task :=
  match from with
  | Laptop => forward_audio_to_unmute
  | Unmute => forward_response_to_laptop
  end.

Definition error_text (from : side) : string :=
  match from with
  | Laptop => "Error forwarding audio: "
  | Unmute => "Error forwarding response: "
  end.

(** [send] inside the [try] of a body: a refusal is logged. *)
Definition guarded_send (from : side) (frame : message) : M unit :=
  try_except (send (destination from) frame)
             (fun e => emit (LogError (error_text from) e)).

(** Whether a decoded frame is a JSON object. *)
Definition is_dict (v : value) : bool :=
  match v with
  | VDict _ => true
  | _ => false
  end.

(** [w] with [evs] appended to its trace. *)
Definition log_all (evs : list event) (w : world) : world :=
  World (laptop_ws w) (unmute_ws w) (now w) (trace w ++ evs).

(** The events of [guarded_send], given the state of the destination. *)
Definition send_events (from : side) (frame : message) (c : conn) : list event :=
  match c with
  | Open => [Send (destination from) frame true]
  | Closed Normal =>
      [Send (destination from) frame false; LogError (error_text from) ConnectionClosedOK]
  | Closed Abnormal =>
      [Send (destination from) frame false; LogError (error_text from) ConnectionClosedError]
  end.

(** The events of one pass of the body on the frame [m]. *)
Definition body_events (from : side) (m : message) (c : conn) : list event :=
  match m with
  | Undecodable _ => [LogError (error_text from) JSONDecodeError]
  | Json (VDict env) =>
      match translate from env with
      | Outbound out => send_events from (Json (VDict out)) c
      | Drop => []
      | TranslationError k => [LogError (error_text from) (KeyError k)]
      end
  | Json _ => [LogError (error_text from) (AttributeError "get")]
  end.

(** The task that reads the connection [from], in a session. *)
Definition reader_state (from : side) (ss : session) : task :=
  match from with
  | Laptop => audio ss
  | Unmute => response ss
  end.

Definition set_reader (from : side) (t : task) (ss : session) : session :=
  match from with
  | Laptop => Session t (response ss)
  | Unmute => Session (audio ss) t
  end.

Definition ended (how : closing) : task :=
  match how with
  | Normal => Returned
  | Abnormal => Failed ConnectionClosedError
  end.

Definition is_running (t : task) : bool :=
  match t with
  | Running => true
  | _ => false
  end.

End Observe.
Export Observe.

(** ** Sample frames and worlds *)

Module Samples.

(** A session in progress: both connections open. *)
Definition live : world := World Open Open 0 [].

(** The speech side has closed normally, the laptop is still connected. *)
Definition unmute_gone : world := World Open (Closed Normal) 0 [].

Definition audio_env (pcm : string) : dict :=
  {[ "type" := VStr "audio"; "data" := VStr pcm; "seq" := VInt 7 ]}.

Definition audio_frame (pcm : string) : message := Json (VDict (audio_env pcm)).

Definition voice_env (opus : string) : dict :=
  {[ "type" := VStr "response.audio.delta"; "delta" := VStr opus; "event_id" := VStr "e1" ]}.

Definition text_env (words : string) : dict :=
  {[ "type" := VStr "response.text.delta"; "delta" := VStr words ]}.

Definition ping_env : dict := {[ "type" := VStr "ping" ]}.

Definition append_pcm (pcm : string) : message :=
  Json (VDict {[ "type" := VStr "unmute.input_audio_buffer.append_pcm";
                 "audio" := VStr pcm;
                 "format" := VStr "int16" ]}).

End Samples.

(** ** The shape of what is sent *)

Module Shape.

(** The field of the inbound envelope that the mapping reads. *)
Definition source_field (from : side) : string :=
  match from with
  | Laptop => "data"
  | Unmute => "delta"
  end.

(** An inbound envelope cut down to its type and its mapped field. *)
Definition mapped_part (from : side) (env : dict) : dict :=
  filter (fun kv => kv.1 = "type" ∨ kv.1 = source_field from) env.

(** An event is [shaped] when, if it is a call of [send], the frame is
    one of the three outbound envelopes, on its own side. *)
Definition shaped (e : event) : Prop :=
  match e with
  | Send Unmute (Json (VDict out)) _ =>
      out !! "type" = Some (VStr "unmute.input_audio_buffer.append_pcm") ∧
      out !! "format" = Some (VStr "int16") ∧
      dom out = ({[ "type"; "audio"; "format" ]} : gset string)
  | Send Laptop (Json (VDict out)) _ =>
      (out !! "type" = Some (VStr "robot.voice_audio") ∧
       dom out = ({[ "type"; "audio" ]} : gset string)) ∨
      (out !! "type" = Some (VStr "robot.text") ∧
       dom out = ({[ "type"; "text" ]} : gset string))
  | Send _ _ _ => False
  | _ => True
  end.

(** [m] only appends to the trace, and only events that satisfy [P]. *)
Definition emits (P : event → Prop) {A} (m : M A) : Prop :=
  ∀ w, ∃ evs, trace (snd (m w)) = trace w ++ evs ∧ Forall P evs.

End Shape.
Export Shape.

(** ** Milestones of one pass of the supervisor *)

Module Milestones.

Definition connecting_to_laptop : event :=
  LogInfo "Connecting to Laptop at ws://10.2.4.46:8090...".

Definition connecting_to_unmute : event :=
  LogInfo "Connecting to Unmute at ws://127.0.0.1:80/api/v1/realtime...".

(** The world when the laptop has accepted the connection. *)
Definition laptop_connected (w : world) : world :=
  set_conn Laptop Open (log_all [connecting_to_laptop; Connect Laptop] w).

(** The world when [gather] is called: both handshakes have succeeded. *)
Definition session_start (w : world) : world :=
  log_all [LogInfo "Connected to Unmute! Bridge is active."]
    (set_conn Unmute Open
       (log_all [LogInfo "Connected to Laptop!"; connecting_to_unmute; Connect Unmute]
          (laptop_connected w))).

(** The world after the [except] clause of [run_bridge] has run on [e]. *)
Definition backed_off (e : exn) (w : world) : world :=
  World (laptop_ws w) (unmute_ws w) (now w + 3)
        (trace w ++ [LogError "Bridge connection error: " e;
                     LogInfo "Retrying in 3 seconds...";
                     Sleep 3]).

(** A pass in which both peers accept and then close normally. *)
Definition quiet_session : attempt :=
  Attempt None None [HangUp Unmute Normal; HangUp Laptop Normal].


(** A pass in which the laptop cannot be reached. *)
Definition laptop_down : attempt := Attempt (Some OSError) None [].

(** A pass in which Unmute rejects the handshake. *)
Definition unmute_rejects : attempt := Attempt None (Some InvalidHandshake) [].

(** A pass in which the laptop drops the connection abnormally. *)
Definition laptop_drops : attempt := Attempt None None [HangUp Laptop Abnormal].


End Milestones.
Export Milestones.

(** ** Interleaved traffic *)

Module Interleaving.

#[global] Instance side_eq_dec : EqDecision side.
Proof. solve_decision. Defined.

(** A frame tagged with the side it arrives from, as an input. *)
Definition deliver (p : side * message) : input := Deliver p.1 p.2.

(** The frames that arrive from [s], in order. *)
Definition frames_from (s : side) (frames : list (side * message)) : list message :=
omap (fun p => if decide (p.1 = s) then Some p.2 else None) frames.

End Interleaving.
Export Interleaving.

(** ** Accounting over a trace *)

Module Accounting.

(** The frames a connection accepted. *)
Definition delivery (e : event) : option (side * message) :=
  match e with
  | Send dst frame true => Some (dst, frame)
  | _ => None
  end.

Definition delivered (evs : list event) : list (side * message) := omap delivery evs.

(** The connections opened and closed, in order. *)
Definition lifecycle_event (e : event) : option event :=
  match e with
  | Connect _ | Close _ => Some e
  | _ => None
  end.

Definition lifecycle (evs : list event) : list event := omap lifecycle_event evs.

(** The errors logged by the [except] clause of [run_bridge]. *)
Definition bridge_error (e : event) : option exn :=
  match e with
  | LogError text err =>
      if bool_decide (text = "Bridge connection error: ") then Some err else None
  | _ => None
  end.

Definition failures (evs : list event) : list exn := omap bridge_error evs.

(** What the two forwarding loops can append to the trace: calls of
    [send], and their own error lines. *)
Definition forwarding_event (e : event) : Prop :=
  match e with
  | Send _ _ _ => True
  | LogError text _ => text = error_text Laptop ∨ text = error_text Unmute
  | _ => False
  end.

(** The connections opened and closed by one pass of [run_bridge] that
    ends with the outcome [o]. *)
Definition pass_lifecycle (a : attempt) (o : outcome unit) : list event :=
  match laptop_handshake a, unmute_handshake a with
  | Some _, _ => [Connect Laptop]
  | None, Some _ => [Connect Laptop; Connect Unmute; Close Laptop]
  | None, None =>
      match o with
      | Blocked => [Connect Laptop; Connect Unmute]
      | _ => [Connect Laptop; Connect Unmute; Close Unmute; Close Laptop]
      end
  end.

End Accounting.
Export Accounting.

(** ** When a session ends *)

Module Endings.

(** Whether the script of a session closes the connection [s]. *)
Definition hangs_up (s : side) (i : input) : bool :=
  match i with
  | HangUp s' _ => bool_decide (s' = s)
  | Deliver _ _ => false
  end.

Definition closes (s : side) (traffic : list input) : bool := existsb (hangs_up s) traffic.

(** A pass of [run_bridge] that cannot hang: a handshake is refused, or
    both peers close their connection at some point. *)
Definition settles (a : attempt) : bool :=
  match laptop_handshake a, unmute_handshake a with
  | None, None => closes Laptop (traffic a) && closes Unmute (traffic a)
  | _, _ => true
  end.

(** The connection attempts made to the laptop. *)
Definition laptop_attempt (e : event) : option unit :=
  match e with
  | Connect Laptop => Some tt
  | _ => None
  end.

Definition laptop_attempts (evs : list event) : nat := length (omap laptop_attempt evs).

End Endings.
Export Endings.

(** ** After the session *)

Module Leaving.

(** Every task that has ended has its connection closed. *)
Definition ended_closed (ss : session) (w : world) : Prop :=
  ∀ t, is_running (reader_state t ss) = false → conn_of t w ≠ Open.

(** Every task that still runs writes to a closed connection. *)
Definition muted (ss : session) (w : world) : Prop :=
  ∀ t, is_running (reader_state t ss) = true → conn_of (destination t) w ≠ Open.

(** What can be appended to the trace between the end of [gather] and
    the end of the [try] block: the two calls of [close()], and what a
    task that still runs appends. *)
Definition leaving_event (e : event) : Prop :=
  forwarding_event e ∨ e = Close Unmute ∨ e = Close Laptop.

End Leaving.
Export Leaving.

(** ** The prompt builder: [src/unmute/llm/new_system_prompt.py] *)

Module Prompt.

Import Stdlib.Strings.Ascii.

(** A Python [str] is represented by its UTF-8 bytes.  The operations
    below look only at ASCII characters (the two braces, the hyphen, the
    underscore), which never occur inside the encoding of another
    character, so they do on the bytes what Python does on the
    characters. *)

(** [s.replace(old, new)] for one-character [old] and [new]. *)
Fixpoint replace (old new : Ascii.ascii) (s : string) : string :=
  match s with
  | EmptyString => EmptyString
  | String c rest => String (if Ascii.eqb c old then new else c) (replace old new rest)
  end.

(** The text of a string constant of the source.  The constants below
    are written with a backquote wherever the source has a double quote
    (the source has no backquote); [text] puts the double quotes back. *)
Definition text (s : string) : string := replace "`"%char "034"%char s.

(** *** [str.format] with keyword arguments *)

(** The exceptions of [str.format] called with keyword arguments only.
    [NotModelled] stands
    for a replacement field with a conversion, a format specification, an
    attribute or an index, which this embedding does not interpret. *)
Inductive format_error : Type :=
| FormatKeyError (name : string)   (* KeyError: no keyword argument of that name *)
| FormatIndexError                 (* IndexError: a positional field, and no positional argument *)
| FormatValueError                 (* ValueError: a single brace *)
| NotModelled.

(** A format string, read from left to right up to its first error. *)
Inductive template : Type :=
| TEnd
| TFail (e : format_error)
| TLit (c : Ascii.ascii) (rest : template)
| THole (name : string) (rest : template).

(** Where the reader of a format string is. *)
Inductive scan : Type :=
| Text
| Opened                    (* after an opening brace *)
| InField (name : string)   (* inside a replacement field *)
| Closing.                  (* after a closing brace *)

Definition special (c : Ascii.ascii) : bool :=
  Ascii.eqb c "!" || Ascii.eqb c ":" || Ascii.eqb c "." || Ascii.eqb c "[" ||
  Ascii.eqb c "{".

Definition is_digit (c : Ascii.ascii) : bool :=
  (48 <=? Ascii.nat_of_ascii c)%nat && (Ascii.nat_of_ascii c <=? 57)%nat.

Fixpoint all_digits (s : string) : bool :=
  match s with
  | EmptyString => true
  | String c rest => is_digit c && all_digits rest
  end.

(** A doubled brace is a literal brace; a single closing brace, and a
    field left open, are errors; an empty or numeric field name asks for
    a positional argument. *)
Fixpoint parse (st : scan) (s : string) : template :=
  match s with
  | EmptyString =>
      match st with
      | Text => TEnd
      | _ => TFail FormatValueError
      end
  | String c rest =>
      match st with
      | Text =>
          if Ascii.eqb c "{" then parse Opened rest
          else if Ascii.eqb c "}" then parse Closing rest
          else TLit c (parse Text rest)
      | Opened =>
          if Ascii.eqb c "{" then TLit "{" (parse Text rest)
          else if Ascii.eqb c "}" then TFail FormatIndexError
          else if special c then TFail NotModelled
          else parse (InField (String c EmptyString)) rest
      | InField name =>
          if Ascii.eqb c "}" then
            if all_digits name then TFail FormatIndexError
            else THole name (parse Text rest)
          else if special c then TFail NotModelled
          else parse (InField (name +:+ String c EmptyString)) rest
      | Closing =>
          if Ascii.eqb c "}" then TLit "}" (parse Text rest)
          else TFail FormatValueError
      end
  end.

Inductive formatted : Type :=
| Formatted (s : string)
| FormatError (e : format_error).

Definition prepend (prefix : string) (r : formatted) : formatted :=
  match r with
  | Formatted s => Formatted (prefix +:+ s)
  | FormatError e => FormatError e
  end.

(** The fields are looked up in order; the value of a field is inserted
    as it is, and is not read as a format string again. *)
Fixpoint render (kwargs : gmap string string) (t : template) : formatted :=
  match t with
  | TEnd => Formatted EmptyString
  | TFail e => FormatError e
  | TLit c rest => prepend (String c EmptyString) (render kwargs rest)
  | THole name rest =>
      match kwargs !! name with
      | Some value => prepend value (render kwargs rest)
      | None => FormatError (FormatKeyError name)
      end
  end.

(** [template.format(name=value, ...)], with the keyword arguments as
    [kwargs]. *)
Definition format (template : string) (kwargs : gmap string string) : formatted :=
  render kwargs (parse Text template).

(** The names of the replacement fields of a format string. *)
Fixpoint holes (t : template) : list string :=
  match t with
  | TEnd | TFail _ => []
  | TLit _ rest => holes rest
  | THole name rest => name :: holes rest
  end.

(** *** The constants of the module *)

(** [_SYSTEM_PROMPT_BASICS] (lines 10-19). *)
Definition _SYSTEM_PROMPT_BASICS : string := text "
You're in a speech conversation with a human user. Their text is being transcribed using
speech-to-text.
Your responses will be spoken out loud, so don't worry about formatting and don't use
unpronouncable characters like emojis and *.
Everything is pronounced literally, so things like `(chuckles)` won't work.
Write as a human would speak.
Respond to the user's text as if you were having a casual conversation with them.
Respond in the language the user is speaking.
".

(** [_SYSTEM_PROMPT_TEMPLATE] (lines 21-57). *)
Definition _SYSTEM_PROMPT_TEMPLATE : string := text "
# BASICS
{_SYSTEM_PROMPT_BASICS}

# STYLE
Be brief.
Speak English. You also speak a bit of French, but if asked to do so, mention you might have an accent. You cannot speak other languages because they're not
supported by the TTS.

This is important because it's a specific wish of the user:
{additional_instructions}

# TRANSCRIPTION ERRORS
There might be some mistakes in the transcript of the user's speech.
If what they're saying doesn't make sense, keep in mind it could be a mistake in the transcription.
If it's clearly a mistake and you can guess they meant something else that sounds similar,
prefer to guess what they meant rather than asking the user about it.
If the user's message seems to end abruptly, as if they have more to say, just answer
with a very short response prompting them to continue.

# SWITCHING BETWEEN ENGLISH AND FRENCH
The Text-to-Speech model plugged to your answer only supports English or French,
refuse to output any other language. When speaking or switching to French, or opening
to a quote in French, always use French guillemets « ». Never put a ':' before a `«`.

# WHO MADE YOU
SocRob@Home is a research project based in Lisbon, Portugal.
Their mission is to advance towards more automated domestic robots.

# SILENCE AND CONVERSATION END
If the user says `...`, that means they haven't spoken for a while.
You can ask if they're still there, make a comment about the silence, or something
similar. If it happens several times, don't make the same kind of comment. Say something
to fill the silence, or ask a question.
If they don't answer three times, say some sort of goodbye message and end your message
with `Bye!`
".

(** [_ROBOT_PLANNER_SEMANTIC_MAP] (lines 78-110). *)
Definition _ROBOT_PLANNER_SEMANTIC_MAP : string := text "
{
    `rooms`: [
        {
            `name`: `kitchen`,
            `contains_surfaces`: [
                {
                    `name`: `kitchen table`,
                    `contains_objects`: [`wine bottle`, `knife`, `towel`]
                }
            ]
        },
        {
            `name`: `living room`,
            `contains_surfaces`: [
                {
                    `name`: `sofa`,
                    `contains_objects`: [`blanket`, `pillow`]
                }
            ]
        },
        {
            `name`: `bathroom`,
            `contains_surfaces`: [
                {
                    `name`: `sink`,
                    `contains_objects`: [`toothbrush`, `soap`, towel]
                }
            ]
        }
    ]
}
".

(** [_ROBOT_PLANNER_DIRECTIVES] (lines 112-211). *)
Definition _ROBOT_PLANNER_DIRECTIVES : string := text "
def move(destination: str): -> bool
    ```
    Moves the robot to a specified location.
    Args:
        destination (str): The semantic name of the destination.
    Returns:
        bool: Indicates whether the move action was successful.
    ```

def find_object(object: str, location: str): -> str
    ```
    Find an object in the scene.
    Args:
        object (str): The description of the object to find.
        location (str): The location where the object should be found.
    Returns:
        str: The unique ID of the found object, which can be used in subsequent commands.
    ```

def find_objects(object: str, location: str): -> list[str]
    ```
    Find all objects of a certain type in the scene.
    Args:
        object (str): The descriptions of the objects to find.
        location (str): The location where the objects should be found.
    Returns:
        list[str]: A list of unique IDs of the found objects, which can be used in subsequent commands.
    ```

def pick(object: str): -> bool
    ```
    Picks up an object identified by its unique ID. The object must have been found using find_object.
    Args:
        object (str): The ID of the object to pick up.
    Returns:
        bool: Indicates whether the pick action was successful.
    ```

def place(destination: str): -> bool
    ```
    Places the currently held object on a specified surface. The robot must already be holding an object.
    Args:
        destination (str): Semantic name of the surface where to place the object.
    Returns:
        bool: Indicates whether the place action was successful.
    ```

def find_person(location: str, person: str, person_info: str): -> str
    ```
    Finds a person based on identifying features in a given location.
    Args:
        location (str): The location where to look for the person.
        person (str): The main identifier of the person (name, gender, age, or `person`).
        person_info (str): Additional description of the person (pose, clothes, etc.).
    Returns:
        str: The unique ID of the found person, which can be used in subsequent commands.
    ```

def find_people(location: str, person: str, person_info: str): -> list[str]
    ```
    Finds all people matching the given description.
    Args:
        location (str): The location where to look for the people.
        person (str): The main identifier of the people (name, gender, age, or `people`).
        person_info (str): Additional description of the people (pose, clothes, etc.).
    Returns:
        list[str]: A list of unique IDs of the found people, which can be used in subsequent commands.
    ```

def guide(person_id: str, destination: str): -> bool
    ```
    Guides a person identified by their ID to a specified location. The person must have been found using find_person.
    Args:
        person_id (str): The ID of the person (must have been found using find_person earlier).
        destination (str): The semantic name of the destination.
    Returns:
        bool: Indicates whether the guide action was successful.
    ```

def follow(person_id: str, destination: str): -> bool
    ```
    Follows a person identified by their ID. The person must have been found using find_person.
    Args:
        person_id (str): The ID of the person to follow.
        destination (str): The semantic name of the destination. If empty, the robot will only stop when told.
    Returns:
        bool: Indicates whether the follow action was successful.
    ```

def deliver(object: str, person: str): -> bool
    ```
    Delivers a previously picked object to a person. The robot must be holding the object and the person must have been found.
    Args:
        object (str): The ID of the object to be delivered.
        person (str): The ID of the person to whom the object will be delivered.
    Returns:
        bool: Indicates whether the deliver action was successful.
    ```
".

(** [_ROBOT_PLANNER_INSTRUCTIONS] (lines 213-238). *)
Definition _ROBOT_PLANNER_INSTRUCTIONS : string := text "
You are a robot assistant that executes tasks in the real world. Your task is to receive user instruction and create a list of steps to complete the task. You should use the following directives to complete the task:

{DIRECTIVES}

To help in your decision, you have the following JSON, that represents the information you know about the environment:

{SEMANTIC_MAP}

The context of the environment is updated dynamically. You should always use the most recent information provided to make decisions. 
If the user provides new information about the environment (e.g., `The keys are actually on the sofa`), you must treat this as a fact and update your internal environment context to plan accordingly.

You will receive system status updates about the execution of your directives in the format: `[SYSTEM EVENT: move(`kitchen`) SUCCEEDED]` or FAILED. Use these updates to decide when to send the next directive or if you need to replan.

Use <speech>...</speech> tags for natural language descriptions that should be spoken. The text inside these tags should follow the `BASICS` instructions above.
Use <plan>...</plan> tags for the sequence of directives.
Use <exec>...</exec> tags for immediate execution directives.

Example Output:
<speech>I am heading to the kitchen.</speech>
<plan>
move(`kitchen`)
find_object(`apple`, `table`)
</plan>
<exec>move(`kitchen`)</exec>
".

(** [LanguageCode = Literal[...]] (line 60). *)
Inductive LanguageCode : Type := En | Fr | EnFr | FrEn.

Definition code (l : LanguageCode) : string :=
  match l with
  | En => "en"
  | Fr => "fr"
  | EnFr => "en/fr"
  | FrEn => "fr/en"
  end.

(** [LANGUAGE_CODE_TO_INSTRUCTIONS] (lines 61-68); its keys are [None]
    and the four codes. *)
Definition LANGUAGE_CODE_TO_INSTRUCTIONS : gmap (option string) string :=
  {[ None := "Speak English. You also speak a bit of French, but if asked to do so, mention you might have an accent.";
     Some "en" := "Speak English. You also speak a bit of French, but if asked to do so, mention you might have an accent.";
     Some "fr" := "Speak French. Don't speak English unless asked to. You also speak a bit of English, but if asked to do so, mention you might have an accent.";
     Some "en/fr" := "You speak English and French.";
     Some "fr/en" := "You speak French and English." ]}.

(** *** The functions of the module *)

(** What one character of the model's name becomes in
    [get_readable_llm_name]. *)
Definition spaced (c : Ascii.ascii) : ascii :=
  if Ascii.eqb c "-" then " "%char
  else if Ascii.eqb c "_" then " "%char
  else c.

(** [get_readable_llm_name] (lines 71-73).  [autoselect_model] is not
    part of these sources: the outcome of calling it is an argument. *)
Definition get_readable_llm_name (autoselect_model : outcome string) : outcome string :=
  match autoselect_model with
  | Done model => Done (replace "_" " " (replace "-" " " model))
  | Raised e => Raised e
  | Blocked => Blocked
  end.

(** [RobotPlannerInstructions] (lines 240-242): [language] is its only
    field that varies, [type] is always ["robot_planner"]. *)
Record RobotPlannerInstructions : Type := Instructions {
  language : option LanguageCode
}.

Definition type (self : RobotPlannerInstructions) : string := "robot_planner".

(** How [make_system_prompt] can fail. *)
Inductive failure : Type :=
| BadFormat (e : format_error)     (* one of the two calls of format raised *)
| NoLanguage                       (* KeyError in LANGUAGE_CODE_TO_INSTRUCTIONS *)
| ModelSelection (e : exn)         (* autoselect_model raised [e] *)
| ModelSelectionHangs.             (* autoselect_model does not return *)

Inductive prompt : Type :=
| Prompt (s : string)
| Fails (f : failure).

(** [RobotPlannerInstructions.make_system_prompt] (lines 244-254): the
    keyword arguments of the second [format] are evaluated in the order
    they are written, before [format] is called. *)
Definition make_system_prompt (self : RobotPlannerInstructions)
           (autoselect_model : outcome string) : prompt :=
  match format _ROBOT_PLANNER_INSTRUCTIONS
               {[ "DIRECTIVES" := _ROBOT_PLANNER_DIRECTIVES;
                  "SEMANTIC_MAP" := _ROBOT_PLANNER_SEMANTIC_MAP ]} with
  | FormatError e => Fails (BadFormat e)
  | Formatted additional_instructions =>
      match LANGUAGE_CODE_TO_INSTRUCTIONS !! (code <$> language self) with
      | None => Fails NoLanguage
      | Some language_instructions =>
          match get_readable_llm_name autoselect_model with
          | Raised e => Fails (ModelSelection e)
          | Blocked => Fails ModelSelectionHangs
          | Done llm_name =>
              match format _SYSTEM_PROMPT_TEMPLATE
                           {[ "_SYSTEM_PROMPT_BASICS" := _SYSTEM_PROMPT_BASICS;
                              "additional_instructions" := additional_instructions;
                              "language_instructions" := language_instructions;
                              "llm_name" := llm_name ]} with
              | Formatted p => Prompt p
              | FormatError e => Fails (BadFormat e)
              end
          end
      end
  end.

(** [get_default_instructions] (lines 267-268). *)
Definition get_default_instructions : RobotPlannerInstructions := Instructions None.

(** [needle] occurs in [hay] at the offset [i]. *)
Definition occurs_at (i : nat) (needle hay : string) : Prop :=
  String.substring i (String.length needle) hay = needle.

End Prompt.

(** * Properties *)

(** ** The bodies refine the translator *)

Lemma type_is_eq_str (env : dict) (name : string) :
  eq_str (default VNone (env !! "type")) name = type_is env name.
Proof. unfold type_is. destruct (env !! "type") as [[]|]; reflexivity. Qed.

Lemma body_translate (from : side) (env : dict) (w : world) :
  body_of from (Json (VDict env)) w =
  match translate from env with
  | Outbound out => guarded_send from (Json (VDict out)) w
  | Drop => (Done tt, w)
  | TranslationError k => (Done tt, record (LogError (error_text from) (KeyError k)) w)
  end.
Proof.
  destruct from;
    unfold body_of, forward_audio_body, forward_response_body, translate, guarded_send,
      try_except, bind, lift, json_loads, get, getitem;
    rewrite ?type_is_eq_str.
  - destruct (type_is env "audio"); [destruct (env !! "data")|]; reflexivity.
  - destruct (type_is env "response.audio.delta"); [destruct (env !! "delta"); reflexivity|].
    destruct (type_is env "response.text.delta"); [destruct (env !! "delta")|]; reflexivity.
Qed.

Lemma body_undecodable (from : side) (raw : string) (w : world) :
  body_of from (Undecodable raw) w =
  (Done tt, record (LogError (error_text from) JSONDecodeError) w).
Proof. destruct from; reflexivity. Qed.

Lemma body_not_dict (from : side) (v : value) (w : world) :
  is_dict v = false →
  body_of from (Json v) w =
  (Done tt, record (LogError (error_text from) (AttributeError "get")) w).
Proof. destruct from, v; try discriminate; reflexivity. Qed.

(** ** What a body appends to the trace *)

Lemma log_all_nil (w : world) : log_all [] w = w.
Proof. destruct w. unfold log_all. cbn. by rewrite app_nil_r. Qed.

Lemma log_all_app (evs evs' : list event) (w : world) :
  log_all evs' (log_all evs w) = log_all (evs ++ evs') w.
Proof. unfold log_all. cbn. by rewrite app_assoc. Qed.

Lemma record_log_all (e : event) (w : world) : record e w = log_all [e] w.
Proof. reflexivity. Qed.

Lemma conn_of_log_all (s : side) (evs : list event) (w : world) :
  conn_of s (log_all evs w) = conn_of s w.
Proof. by destruct s. Qed.

Lemma effects_log_all {A} (m : M A) (w : world) (evs : list event) :
  snd (m w) = log_all evs w → effects m w = evs.
Proof. intros H. unfold effects. rewrite H. cbn. apply drop_app_length. Qed.

Lemma guarded_send_world (from : side) (frame : message) (w : world) :
  guarded_send from frame w =
  (Done tt, log_all (send_events from frame (conn_of (destination from) w)) w).
Proof.
  unfold guarded_send, try_except, send, send_events.
  destruct (conn_of (destination from) w) as [|[]]; try reflexivity.
  all: unfold emit; rewrite !record_log_all, log_all_app; reflexivity.
Qed.

Lemma body_world (from : side) (m : message) (w : world) :
  body_of from m w =
  (Done tt, log_all (body_events from m (conn_of (destination from) w)) w).
Proof.
  destruct m as [raw|v].
  - by rewrite body_undecodable.
  - destruct (is_dict v) eqn:Hv.
    + destruct v; try discriminate. rewrite body_translate. cbn [body_events].
      destruct (translate from fields).
      * apply guarded_send_world.
      * by rewrite log_all_nil.
      * reflexivity.
    + rewrite body_not_dict by done. by destruct v.
Qed.

Lemma coroutine_frame (from : side) (m : message) (w : world) :
  coroutine_of from (Frame m) w =
  (Done Running, log_all (body_events from m (conn_of (destination from) w)) w).
Proof.
  pose proof (body_world from m w) as H.
  destruct from; cbn [coroutine_of body_of] in *;
    unfold forward_audio_to_unmute, forward_response_to_laptop, async_for, bind;
    by rewrite H.
Qed.

Lemma coroutine_end (from : side) (how : closing) (w : world) :
  coroutine_of from (EndOfStream how) w =
  (Done match how with
        | Normal => Returned
        | Abnormal => Failed ConnectionClosedError
        end, w).
Proof. by destruct from, how. Qed.

Lemma run_frames (from : side) (ms : list message) (rest : list recv) (w : world) :
  run (coroutine_of from) (map Frame ms ++ rest) w =
  run (coroutine_of from) rest
      (log_all (flat_map (fun m => body_events from m (conn_of (destination from) w)) ms) w).
Proof.
  revert w. induction ms as [|m ms IH]; intros w; cbn [map app flat_map].
  - by rewrite log_all_nil.
  - cbn [run]. unfold bind at 1. rewrite coroutine_frame.
    rewrite IH, conn_of_log_all, log_all_app. reflexivity.
Qed.

(** ** The translation of one envelope *)

Lemma type_is_false (env : dict) (name : string) :
  env !! "type" ≠ Some (VStr name) → type_is env name = false.
Proof.
  unfold type_is. intros H.
  destruct (env !! "type") as [[]|]; try reflexivity.
  apply bool_decide_eq_false. congruence.
Qed.

Lemma type_is_true (env : dict) (name : string) :
  env !! "type" = Some (VStr name) → type_is env name = true.
Proof. unfold type_is. intros ->. by apply bool_decide_eq_true. Qed.

Lemma calls_send_events (from : side) (frame : message) (c : conn) :
  calls (send_events from frame c) = [(destination from, frame)].
Proof. by destruct c as [|[]]. Qed.

Lemma translate_audio (env : dict) (X : value) :
  env !! "type" = Some (VStr "audio") → env !! "data" = Some X →
  translate Laptop env =
  Outbound {[ "type" := VStr "unmute.input_audio_buffer.append_pcm";
              "audio" := X;
              "format" := VStr "int16" ]}.
Proof. intros Htype Hdata. cbn [translate]. by rewrite type_is_true, Hdata. Qed.

Lemma translate_voice (env : dict) (Y : value) :
  env !! "type" = Some (VStr "response.audio.delta") → env !! "delta" = Some Y →
  translate Unmute env = Outbound {[ "type" := VStr "robot.voice_audio"; "audio" := Y ]}.
Proof. intros Htype Hdelta. cbn [translate]. by rewrite type_is_true, Hdelta. Qed.

Lemma translate_text (env : dict) (Z : value) :
  env !! "type" = Some (VStr "response.text.delta") → env !! "delta" = Some Z →
  translate Unmute env = Outbound {[ "type" := VStr "robot.text"; "text" := Z ]}.
Proof.
  intros Htype Hdelta. cbn [translate].
  rewrite (type_is_false env "response.audio.delta") by (rewrite Htype; by intros [=]).
  by rewrite type_is_true, Hdelta.
Qed.

(** One translated envelope: one call of [send], accepted when the
    destination is open. *)
Lemma body_outbound (from : side) (env out : dict) (w : world) :
  translate from env = Outbound out →
  calls (effects (body_of from (Json (VDict env))) w) =
    [(destination from, Json (VDict out))] ∧
  (conn_of (destination from) w = Open →
   body_of from (Json (VDict env)) w =
   (Done tt, record (Send (destination from) (Json (VDict out)) true) w)).
Proof.
  intros Hout. split.
  - erewrite effects_log_all by (rewrite body_world; reflexivity).
    cbn [body_events]. rewrite Hout. apply calls_send_events.
  - intros Hopen. rewrite body_world. cbn [body_events]. by rewrite Hout, Hopen.
Qed.

(** C1: a frame of type "audio" with data X from the laptop makes the
    relay call send exactly once, towards Unmute, with the envelope
    {type: "unmute.input_audio_buffer.append_pcm", audio: X, format:
    "int16"}; a frame {type: "response.audio.delta", delta: Y} from Unmute
    makes it send exactly {type: "robot.voice_audio", audio: Y} to the
    laptop, and {type: "response.text.delta", delta: Z} exactly {type:
    "robot.text", text: Z}.  When the destination is open the frame is
    accepted and nothing else happens. *)
Theorem translator_three_mappings :
  (∀ (env : dict) (X : value) (w : world),
      env !! "type" = Some (VStr "audio") → env !! "data" = Some X →
      let out := Json (VDict {[ "type" := VStr "unmute.input_audio_buffer.append_pcm";
                                "audio" := X;
                                "format" := VStr "int16" ]}) in
      calls (effects (forward_audio_body (Json (VDict env))) w) = [(Unmute, out)] ∧
      (unmute_ws w = Open →
       forward_audio_body (Json (VDict env)) w = (Done tt, record (Send Unmute out true) w))) ∧
  (∀ (env : dict) (Y : value) (w : world),
      env !! "type" = Some (VStr "response.audio.delta") → env !! "delta" = Some Y →
      let out := Json (VDict {[ "type" := VStr "robot.voice_audio"; "audio" := Y ]}) in
      calls (effects (forward_response_body (Json (VDict env))) w) = [(Laptop, out)] ∧
      (laptop_ws w = Open →
       forward_response_body (Json (VDict env)) w = (Done tt, record (Send Laptop out true) w))) ∧
  (∀ (env : dict) (Z : value) (w : world),
      env !! "type" = Some (VStr "response.text.delta") → env !! "delta" = Some Z →
      let out := Json (VDict {[ "type" := VStr "robot.text"; "text" := Z ]}) in
      calls (effects (forward_response_body (Json (VDict env))) w) = [(Laptop, out)] ∧
      (laptop_ws w = Open →
       forward_response_body (Json (VDict env)) w = (Done tt, record (Send Laptop out true) w))).
Proof.
  split; [|split]; intros env x w Htype Hfield out.
  - apply (body_outbound Laptop env), translate_audio; done.
  - apply (body_outbound Unmute env), translate_voice; done.
  - apply (body_outbound Unmute env), translate_text; done.
Qed.

Lemma translator_three_mappings_witness :
  forward_audio_body (Samples.audio_frame "UklGRg==") Samples.live =
    (Done tt, World Open Open 0 [Send Unmute (Samples.append_pcm "UklGRg==") true]) ∧
  calls (effects (forward_response_body (Json (VDict (Samples.voice_env "T2dnUw=="))))
                 Samples.unmute_gone) =
    [(Laptop, Json (VDict {[ "type" := VStr "robot.voice_audio"; "audio" := VStr "T2dnUw==" ]}))] ∧
  calls (effects (forward_response_body (Json (VDict (Samples.text_env "Hello")))) Samples.live) =
    [(Laptop, Json (VDict {[ "type" := VStr "robot.text"; "text" := VStr "Hello" ]}))].
Proof.
  destruct translator_three_mappings as (Haudio & Hvoice & Htext).
  split; [|split].
  - apply (Haudio (Samples.audio_env "UklGRg==") (VStr "UklGRg==") Samples.live); reflexivity.
  - apply (Hvoice (Samples.voice_env "T2dnUw==") (VStr "T2dnUw==") Samples.unmute_gone);
      reflexivity.
  - apply (Htext (Samples.text_env "Hello") (VStr "Hello") Samples.live); reflexivity.
Defined.

Lemma run_frame (from : side) (m : message) (rest : list recv) (w : world) :
  run (coroutine_of from) (Frame m :: rest) w =
  run (coroutine_of from) rest (snd (body_of from m w)).
Proof.
  cbn [run]. unfold bind at 1. rewrite coroutine_frame, body_world. reflexivity.
Qed.

(** C2: an envelope whose type is not "audio" on the laptop side, or
    neither "response.audio.delta" nor "response.text.delta" on the Unmute
    side, leaves the world as it was (no send, no log line), and the loop
    goes on with the next frame. *)
Theorem unrecognized_type_dropped :
  (∀ (env : dict) (rest : list recv) (w : world),
      env !! "type" ≠ Some (VStr "audio") →
      forward_audio_body (Json (VDict env)) w = (Done tt, w) ∧
      run forward_audio_to_unmute (Frame (Json (VDict env)) :: rest) w =
      run forward_audio_to_unmute rest w) ∧
  (∀ (env : dict) (rest : list recv) (w : world),
      env !! "type" ≠ Some (VStr "response.audio.delta") →
      env !! "type" ≠ Some (VStr "response.text.delta") →
      forward_response_body (Json (VDict env)) w = (Done tt, w) ∧
      run forward_response_to_laptop (Frame (Json (VDict env)) :: rest) w =
      run forward_response_to_laptop rest w).
Proof.
  split.
  - intros env rest w Htype.
    assert (Hbody : body_of Laptop (Json (VDict env)) w = (Done tt, w)).
    { rewrite body_translate. cbn [translate]. by rewrite type_is_false. }
    split; [exact Hbody|].
    change forward_audio_to_unmute with (coroutine_of Laptop).
    by rewrite run_frame, Hbody.
  - intros env rest w Hvoice Htext.
    assert (Hbody : body_of Unmute (Json (VDict env)) w = (Done tt, w)).
    { rewrite body_translate. cbn [translate]. by rewrite !type_is_false. }
    split; [exact Hbody|].
    change forward_response_to_laptop with (coroutine_of Unmute).
    by rewrite run_frame, Hbody.
Qed.

Lemma unrecognized_type_dropped_witness :
  run forward_audio_to_unmute
      [Frame (Json (VDict Samples.ping_env)); Frame (Samples.audio_frame "AAAA")] Samples.live =
  run forward_audio_to_unmute [Frame (Samples.audio_frame "AAAA")] Samples.live ∧
  forward_response_body (Json (VDict (Samples.audio_env "AAAA"))) Samples.live =
  (Done tt, Samples.live).
Proof.
  destruct unrecognized_type_dropped as (Haudio & Hresponse).
  split.
  - apply (Haudio Samples.ping_env [Frame (Samples.audio_frame "AAAA")] Samples.live).
    vm_compute. discriminate.
  - apply (Hresponse (Samples.audio_env "AAAA") [] Samples.live); vm_compute; discriminate.
Defined.

(** C3: an envelope of a recognized type that lacks the field its mapping
    reads ("data" for "audio", "delta" for the two delta types) raises
    KeyError inside the try block: the except clause logs it, nothing is
    sent, and the loop goes on with the next frame. *)
Theorem missing_field_dropped :
  (∀ (env : dict) (rest : list recv) (w : world),
      env !! "type" = Some (VStr "audio") → env !! "data" = None →
      forward_audio_body (Json (VDict env)) w =
        (Done tt, record (LogError "Error forwarding audio: " (KeyError "data")) w) ∧
      run forward_audio_to_unmute (Frame (Json (VDict env)) :: rest) w =
      run forward_audio_to_unmute rest
          (record (LogError "Error forwarding audio: " (KeyError "data")) w)) ∧
  (∀ (env : dict) (rest : list recv) (w : world),
      (env !! "type" = Some (VStr "response.audio.delta") ∨
       env !! "type" = Some (VStr "response.text.delta")) →
      env !! "delta" = None →
      forward_response_body (Json (VDict env)) w =
        (Done tt, record (LogError "Error forwarding response: " (KeyError "delta")) w) ∧
      run forward_response_to_laptop (Frame (Json (VDict env)) :: rest) w =
      run forward_response_to_laptop rest
          (record (LogError "Error forwarding response: " (KeyError "delta")) w)).
Proof.
  split.
  - intros env rest w Htype Hdata.
    assert (Hbody : body_of Laptop (Json (VDict env)) w =
                    (Done tt, record (LogError "Error forwarding audio: " (KeyError "data")) w)).
    { rewrite body_translate. cbn [translate]. by rewrite type_is_true, Hdata. }
    split; [exact Hbody|].
    change forward_audio_to_unmute with (coroutine_of Laptop).
    by rewrite run_frame, Hbody.
  - intros env rest w Htype Hdelta.
    assert (Hbody : body_of Unmute (Json (VDict env)) w =
                    (Done tt, record (LogError "Error forwarding response: " (KeyError "delta")) w)).
    { rewrite body_translate. cbn [translate]. rewrite Hdelta.
      destruct Htype as [Htype|Htype].
      - by rewrite type_is_true.
      - rewrite (type_is_true _ _ Htype).
        by destruct (type_is env "response.audio.delta"). }
    split; [exact Hbody|].
    change forward_response_to_laptop with (coroutine_of Unmute).
    by rewrite run_frame, Hbody.
Qed.

Lemma missing_field_dropped_witness :
  forward_audio_body (Json (VDict {[ "type" := VStr "audio" ]})) Samples.live =
    (Done tt, World Open Open 0 [LogError "Error forwarding audio: " (KeyError "data")]) ∧
  forward_response_body (Json (VDict {[ "type" := VStr "response.text.delta" ]})) Samples.live =
    (Done tt, World Open Open 0 [LogError "Error forwarding response: " (KeyError "delta")]).
Proof.
  destruct missing_field_dropped as (Haudio & Hresponse).
  split.
  - apply (Haudio {[ "type" := VStr "audio" ]} [] Samples.live); reflexivity.
  - apply (Hresponse {[ "type" := VStr "response.text.delta" ]} [] Samples.live);
      [right|]; reflexivity.
Defined.

(** ** One direction: the loop over the frames of its source *)

Lemma type_is_ext (env1 env2 : dict) (name : string) :
  env1 !! "type" = env2 !! "type" → type_is env1 name = type_is env2 name.
Proof. unfold type_is. by intros ->. Qed.

Lemma calls_body_events (from : side) (m : message) (c : conn) :
  calls (body_events from m c) = option_list (forwarded from m).
Proof.
  destruct m as [raw|v]; [reflexivity|].
  destruct v; try reflexivity.
  cbn [body_events forwarded].
  destruct (translate from fields); try reflexivity.
  apply calls_send_events.
Qed.

Lemma calls_app (evs evs' : list event) : calls (evs ++ evs') = calls evs ++ calls evs'.
Proof. apply omap_app. Qed.

Lemma calls_flat_body_events (from : side) (ms : list message) (c : conn) :
  calls (flat_map (fun m => body_events from m c) ms) = omap (forwarded from) ms.
Proof.
  induction ms as [|m ms IH]; [reflexivity|].
  cbn [flat_map]. rewrite calls_app, calls_body_events, IH.
  destruct (forwarded from m) eqn:E; cbn; rewrite E; reflexivity.
Qed.

(** C10: two envelopes with the same type and the same mapped field
    ("data" on the laptop side, "delta" on the Unmute side) are handled
    identically, whatever else they contain. *)
Theorem translation_ignores_other_fields :
  (∀ (env1 env2 : dict) (w : world),
      env1 !! "type" = env2 !! "type" → env1 !! "data" = env2 !! "data" →
      forward_audio_body (Json (VDict env1)) w = forward_audio_body (Json (VDict env2)) w) ∧
  (∀ (env1 env2 : dict) (w : world),
      env1 !! "type" = env2 !! "type" → env1 !! "delta" = env2 !! "delta" →
      forward_response_body (Json (VDict env1)) w = forward_response_body (Json (VDict env2)) w).
Proof.
  split; intros env1 env2 w Htype Hfield.
  - change forward_audio_body with (body_of Laptop).
    rewrite !body_translate. cbn [translate].
    by rewrite (type_is_ext env1 env2), Hfield.
  - change forward_response_body with (body_of Unmute).
    rewrite !body_translate. cbn [translate].
    by rewrite !(type_is_ext env1 env2), Hfield.
Qed.

Lemma translation_ignores_other_fields_witness :
  forward_audio_body (Samples.audio_frame "AAAA") Samples.live =
  forward_audio_body (Json (VDict {[ "type" := VStr "audio"; "data" := VStr "AAAA" ]})) Samples.live ∧
  forward_response_body (Json (VDict (Samples.voice_env "T2dn"))) Samples.unmute_gone =
  forward_response_body
    (Json (VDict {[ "delta" := VStr "T2dn"; "type" := VStr "response.audio.delta";
                    "format" := VStr "float32" ]})) Samples.unmute_gone.
Proof.
  destruct translation_ignores_other_fields as (Haudio & Hresponse).
  split.
  - apply (Haudio (Samples.audio_env "AAAA")); reflexivity.
  - apply (Hresponse (Samples.voice_env "T2dn")); reflexivity.
Defined.

Lemma body_done (from : side) (m : message) (w : world) :
  fst (body_of from m w) = Done tt.
Proof. by rewrite body_world. Qed.

Lemma run_until_end (from : side) (ms : list message) (how : closing)
      (rest : list recv) (w : world) :
  fst (run (coroutine_of from) (map Frame ms ++ EndOfStream how :: rest) w) =
  Done match how with
       | Normal => Returned
       | Abnormal => Failed ConnectionClosedError
       end.
Proof.
  rewrite run_frames. cbn [run]. unfold bind. rewrite coroutine_end.
  by destruct how.
Qed.

(** ** The session *)

Lemma resume_frame (from : side) (ss : session) (m : message) (w : world) :
  resume from ss (Frame m) w =
  if is_running (reader_state from ss)
  then (Done ss, log_all (body_events from m (conn_of (destination from) w)) w)
  else (Done ss, w).
Proof.
  pose proof (coroutine_frame from m w) as H.
  destruct from, ss as [a r]; cbn [resume coroutine_of reader_state] in *;
    unfold resume_audio, resume_response, bind; cbn [audio response].
  - destruct a; cbn [is_running]; try reflexivity. by rewrite H.
  - destruct r; cbn [is_running]; try reflexivity. by rewrite H.
Qed.

Lemma resume_end (from : side) (ss : session) (how : closing) (w : world) :
  resume from ss (EndOfStream how) w =
  (Done (if is_running (reader_state from ss) then set_reader from (ended how) ss else ss), w).
Proof.
  pose proof (coroutine_end from how w) as H.
  destruct from, ss as [a r]; cbn [resume coroutine_of reader_state set_reader] in *;
    unfold resume_audio, resume_response, bind; cbn [audio response].
  - destruct a; cbn [is_running]; try reflexivity. rewrite H. by destruct how.
  - destruct r; cbn [is_running]; try reflexivity. rewrite H. by destruct how.
Qed.

Lemma session_step_deliver (ss : session) (from : side) (m : message) (w : world) :
  session_step ss (Deliver from m) w =
  if is_running (reader_state from ss)
  then (Done ss, log_all (body_events from m (conn_of (destination from) w)) w)
  else (Done ss, w).
Proof. apply resume_frame. Qed.

Lemma session_step_hang_up (ss : session) (s : side) (how : closing) (w : world) :
  session_step ss (HangUp s how) w =
  (Done (if is_running (reader_state s ss) then set_reader s (ended how) ss else ss),
   hang_up s how w).
Proof. cbn [session_step]. unfold bind at 1. apply resume_end. Qed.

Lemma gather_fresh_frames (from : side) (ms : list message) (rest : list input) (w : world) :
  gather (Session Running Running) (map (Deliver from) ms ++ rest) w =
  gather (Session Running Running) rest
         (log_all (flat_map (fun m => body_events from m (conn_of (destination from) w)) ms) w).
Proof.
  revert w. induction ms as [|m ms IH]; intros w; cbn [map app flat_map].
  - by rewrite log_all_nil.
  - cbn [gather gather_result audio response]. unfold bind at 1.
    rewrite session_step_deliver.
    replace (is_running (reader_state from (Session Running Running))) with true
      by (by destruct from).
    rewrite IH, conn_of_log_all, log_all_app. reflexivity.
Qed.

Lemma gather_source_fails (from : side) (ms : list message) (rest : list input) (w : world) :
  fst (gather (Session Running Running)
              (map (Deliver from) ms ++ HangUp from Abnormal :: rest) w) =
  Raised ConnectionClosedError.
Proof.
  rewrite gather_fresh_frames.
  cbn [gather gather_result audio response]. unfold bind at 1.
  rewrite session_step_hang_up.
  by destruct from, rest.
Qed.

(** C4 (as the code has it): a loop goes on for as long as its source
    yields frames, whatever happens to the frames and to the calls of
    send: the body always completes, a refused send included.  The loop
    ends when its source ends: it returns on a normal close and raises
    ConnectionClosedError on an abnormal one, and gather then raises that
    exception out of the session. *)
Theorem loop_ends_with_its_source (from : side) (ms : list message) (w : world) :
  fst (run (coroutine_of from) (map Frame ms) w) = Done Running ∧
  (∀ (m : message) (rest : list recv),
      fst (body_of from m w) = Done tt ∧
      run (coroutine_of from) (Frame m :: rest) w =
      run (coroutine_of from) rest (snd (body_of from m w))) ∧
  (∀ rest : list recv,
      fst (run (coroutine_of from) (map Frame ms ++ EndOfStream Normal :: rest) w) =
      Done Returned) ∧
  (∀ rest : list recv,
      fst (run (coroutine_of from) (map Frame ms ++ EndOfStream Abnormal :: rest) w) =
      Done (Failed ConnectionClosedError)) ∧
  (∀ rest : list input,
      fst (gather (Session Running Running)
                  (map (Deliver from) ms ++ HangUp from Abnormal :: rest) w) =
      Raised ConnectionClosedError).
Proof.
  split; [|split; [|split; [|split]]].
  - rewrite <- (app_nil_r (map Frame ms)), run_frames. reflexivity.
  - intros m rest. split; [apply body_done|apply run_frame].
  - intros rest. apply (run_until_end from ms Normal).
  - intros rest. apply (run_until_end from ms Abnormal).
  - intros rest. apply gather_source_fails.
Qed.

(** C4 fails as stated: with Unmute closed, both calls of send raise
    ConnectionClosedOK, yet the loop handles the second frame after the
    first and is still running at the end; run inside a session, the
    refusals do not end the session either. *)
Lemma send_failure_does_not_end_loop :
  run forward_audio_to_unmute
      [Frame (Samples.audio_frame "AAAA"); Frame (Samples.audio_frame "BBBB")]
      Samples.unmute_gone =
  (Done Running,
   World Open (Closed Normal) 0
         [Send Unmute (Samples.append_pcm "AAAA") false;
          LogError "Error forwarding audio: " ConnectionClosedOK;
          Send Unmute (Samples.append_pcm "BBBB") false;
          LogError "Error forwarding audio: " ConnectionClosedOK]) ∧
  gather (Session Running Running)
         [HangUp Unmute Normal;
          Deliver Laptop (Samples.audio_frame "AAAA");
          Deliver Laptop (Samples.audio_frame "BBBB")]
         Samples.live =
  (Blocked,
   World Open (Closed Normal) 0
         [Send Unmute (Samples.append_pcm "AAAA") false;
          LogError "Error forwarding audio: " ConnectionClosedOK;
          Send Unmute (Samples.append_pcm "BBBB") false;
          LogError "Error forwarding audio: " ConnectionClosedOK]).
Proof. split; vm_compute; reflexivity. Qed.

(** C5 (as the code has it): a frame that json.loads rejects raises
    JSONDecodeError inside the try block, and a frame that decodes to
    something other than an object raises AttributeError there; either
    way the except clause logs it, the frame is dropped and the loop goes
    on with the next frame. *)
Theorem unparsable_frame_dropped :
  (∀ (raw : string) (rest : list recv) (w : world),
      run forward_audio_to_unmute (Frame (Undecodable raw) :: rest) w =
      run forward_audio_to_unmute rest
          (record (LogError "Error forwarding audio: " JSONDecodeError) w)) ∧
  (∀ (raw : string) (rest : list recv) (w : world),
      run forward_response_to_laptop (Frame (Undecodable raw) :: rest) w =
      run forward_response_to_laptop rest
          (record (LogError "Error forwarding response: " JSONDecodeError) w)) ∧
  (∀ (v : value) (rest : list recv) (w : world),
      is_dict v = false →
      run forward_audio_to_unmute (Frame (Json v) :: rest) w =
      run forward_audio_to_unmute rest
          (record (LogError "Error forwarding audio: " (AttributeError "get")) w)) ∧
  (∀ (v : value) (rest : list recv) (w : world),
      is_dict v = false →
      run forward_response_to_laptop (Frame (Json v) :: rest) w =
      run forward_response_to_laptop rest
          (record (LogError "Error forwarding response: " (AttributeError "get")) w)).
Proof.
  split; [|split; [|split]].
  - intros raw rest w. change forward_audio_to_unmute with (coroutine_of Laptop).
    by rewrite run_frame, body_undecodable.
  - intros raw rest w. change forward_response_to_laptop with (coroutine_of Unmute).
    by rewrite run_frame, body_undecodable.
  - intros v rest w Hv. change forward_audio_to_unmute with (coroutine_of Laptop).
    by rewrite run_frame, body_not_dict.
  - intros v rest w Hv. change forward_response_to_laptop with (coroutine_of Unmute).
    by rewrite run_frame, body_not_dict.
Qed.

Lemma unparsable_frame_dropped_witness :
  run forward_audio_to_unmute
      [Frame (Json (VList [VInt 1; VInt 2])); Frame (Samples.audio_frame "AAAA")] Samples.live =
  run forward_audio_to_unmute [Frame (Samples.audio_frame "AAAA")]
      (World Open Open 0 [LogError "Error forwarding audio: " (AttributeError "get")]) ∧
  run forward_response_to_laptop [Frame (Json (VStr "response.text.delta"))] Samples.live =
  run forward_response_to_laptop []
      (World Open Open 0 [LogError "Error forwarding response: " (AttributeError "get")]).
Proof.
  destruct unparsable_frame_dropped as (_ & _ & Haudio & Hresponse).
  split.
  - apply (Haudio (VList [VInt 1; VInt 2]) [Frame (Samples.audio_frame "AAAA")] Samples.live).
    reflexivity.
  - apply (Hresponse (VStr "response.text.delta") [] Samples.live). reflexivity.
Defined.

(** C5 fails as stated: the frame that is not JSON does not end the
    loop; the audio frame behind it is forwarded and the loop is still
    running.  Inside a session, the session stays up: gather still waits
    and no connection has been closed. *)
Lemma unparsable_frame_does_not_end_loop :
  run forward_audio_to_unmute
      [Frame (Undecodable "not json {"); Frame (Samples.audio_frame "AAAA")] Samples.live =
  (Done Running,
   World Open Open 0
         [LogError "Error forwarding audio: " JSONDecodeError;
          Send Unmute (Samples.append_pcm "AAAA") true]) ∧
  gather (Session Running Running)
         [Deliver Unmute (Undecodable "not json {");
          Deliver Laptop (Samples.audio_frame "AAAA")] Samples.live =
  (Blocked,
   World Open Open 0
         [LogError "Error forwarding response: " JSONDecodeError;
          Send Unmute (Samples.append_pcm "AAAA") true]).
Proof. split; vm_compute; reflexivity. Qed.

(** ** An invariant of the trace *)

Section TraceInvariant.

Variable P : event → Prop.

#[local] Abbreviation emits := (emits P).

Lemma emits_quiet {A} (m : M A) :
  (∀ w, trace (snd (m w)) = trace w) → emits m.
Proof. intros H w. exists []. by rewrite H, app_nil_r. Qed.

Lemma emits_ret {A} (a : A) : emits (ret a).
Proof. by apply emits_quiet. Qed.

Lemma emits_lift {A} (o : outcome A) : emits (lift o).
Proof. by apply emits_quiet. Qed.

Lemma emits_bind {A B} (m : M A) (k : A → M B) :
  emits m → (∀ a, emits (k a)) → emits (bind m k).
Proof.
  intros Hm Hk w. unfold bind.
  destruct (Hm w) as (evs & Htr & Hevs).
  destruct (m w) as [[a|e|] w1]; cbn [snd] in *.
  - destruct (Hk a w1) as (evs' & Htr' & Hevs').
    exists (evs ++ evs'). rewrite Htr', Htr, app_assoc. split; [done|].
    by apply Forall_app.
  - by exists evs.
  - by exists evs.
Qed.

Lemma emits_try_except {A} (body : M A) (handler : exn → M A) :
  emits body → (∀ e, emits (handler e)) → emits (try_except body handler).
Proof.
  intros Hm Hk w. unfold try_except.
  destruct (Hm w) as (evs & Htr & Hevs).
  destruct (body w) as [[a|e|] w1]; cbn [snd] in *.
  - by exists evs.
  - destruct (Hk e w1) as (evs' & Htr' & Hevs').
    exists (evs ++ evs'). rewrite Htr', Htr, app_assoc. split; [done|].
    by apply Forall_app.
  - by exists evs.
Qed.

Lemma emits_finally {A B} (body : M A) (cleanup : M B) :
  emits body → emits cleanup → emits (finally body cleanup).
Proof.
  intros Hm Hc w. unfold finally.
  destruct (Hm w) as (evs & Htr & Hevs).
  destruct (body w) as [[a|e|] w1]; cbn [snd] in *.
  - destruct (Hc w1) as (evs' & Htr' & Hevs').
    exists (evs ++ evs'). rewrite app_assoc, <- Htr.
    split; [|by apply Forall_app].
    by destruct (cleanup w1) as [[b|e|] w2].
  - destruct (Hc w1) as (evs' & Htr' & Hevs').
    exists (evs ++ evs'). rewrite app_assoc, <- Htr.
    split; [|by apply Forall_app].
    by destruct (cleanup w1) as [[b|e'|] w2].
  - by exists evs.
Qed.

Lemma emits_emit (e : event) : P e → emits (emit e).
Proof. intros He w. exists [e]. split; [done|]. by apply Forall_singleton. Qed.

Lemma emits_sleep (seconds : Z) : P (Sleep seconds) → emits (sleep seconds).
Proof. intros He w. exists [Sleep seconds]. split; [done|]. by apply Forall_singleton. Qed.

Lemma emits_send (dst : side) (frame : message) :
  (∀ accepted, P (Send dst frame accepted)) → emits (send dst frame).
Proof.
  intros He w. unfold send.
  destruct (conn_of dst w) as [|[]]; eexists [_]; (split; [done|]);
    by apply Forall_singleton.
Qed.

Lemma trace_set_conn (s : side) (c : conn) (w : world) :
  trace (set_conn s c w) = trace w.
Proof. by destruct s. Qed.

Lemma trace_hang_up (s : side) (how : closing) (w : world) :
  trace (hang_up s how w) = trace w.
Proof. unfold hang_up. destruct (conn_of s w); [apply trace_set_conn|done]. Qed.

Lemma emits_connect (s : side) (handshake : option exn) :
  P (Connect s) → emits (connect s handshake).
Proof.
  intros He. unfold connect. apply emits_bind; [by apply emits_emit|].
  intros _. destruct handshake; [apply emits_lift|].
  apply emits_quiet. intros w. apply trace_set_conn.
Qed.

Lemma emits_effects {A} (m : M A) (w : world) : emits m → Forall P (effects m w).
Proof.
  intros Hm. destruct (Hm w) as (evs & Htr & Hevs).
  unfold effects. by rewrite Htr, drop_app_length.
Qed.

Lemma emits_trace {A} (m : M A) (w : world) :
  emits m → Forall P (trace w) → Forall P (trace (snd (m w))).
Proof.
  intros Hm Hw. destruct (Hm w) as (evs & -> & Hevs). by apply Forall_app.
Qed.

(** What is left to show for the bridge is that the calls of [send] in
    the two bodies satisfy [P]. *)
Hypothesis P_other : ∀ e, call e = None → P e.
Hypothesis P_send :
  ∀ from env out accepted,
    translate from env = Outbound out →
    P (Send (destination from) (Json (VDict out)) accepted).

Lemma P_body_events (from : side) (m : message) (c : conn) :
  Forall P (body_events from m c).
Proof.
  destruct m as [raw|v].
  - apply Forall_singleton. by apply P_other.
  - destruct v; try (apply Forall_singleton; by apply P_other).
    cbn [body_events]. destruct (translate from fields) eqn:Hout.
    + destruct c as [|[]]; cbn [send_events];
        repeat first [apply Forall_nil_2 | apply Forall_cons_2];
        try (by apply P_other); eapply P_send, Hout.
    + apply Forall_nil_2.
    + apply Forall_singleton. by apply P_other.
Qed.

Lemma emits_coroutine (from : side) (r : recv) : emits (coroutine_of from r).
Proof.
  destruct r as [m|how].
  - intros w. rewrite coroutine_frame. eexists. split; [reflexivity|].
    apply P_body_events.
  - apply emits_quiet. intros w. by rewrite coroutine_end.
Qed.

Lemma emits_run (from : side) (inbound : list recv) :
  emits (run (coroutine_of from) inbound).
Proof.
  induction inbound as [|r rest IH]; cbn [run]; [apply emits_ret|].
  apply emits_bind; [apply emits_coroutine|].
  intros [| |e]; [exact IH|apply emits_ret..].
Qed.

Lemma emits_session_step (ss : session) (i : input) : emits (session_step ss i).
Proof.
  destruct i as [from m|s how]; intros w.
  - rewrite session_step_deliver.
    destruct (is_running (reader_state from ss)).
    + eexists. split; [reflexivity|]. apply P_body_events.
    + exists []. by rewrite app_nil_r.
  - rewrite session_step_hang_up. exists []. cbn [snd].
    by rewrite trace_hang_up, app_nil_r.
Qed.

Lemma emits_gather (ss : session) (traffic : list input) : emits (gather ss traffic).
Proof.
  revert ss. induction traffic as [|i rest IH]; intros ss; cbn [gather].
  - destruct (gather_result ss); apply emits_lift.
  - destruct (gather_result ss); [apply emits_lift|].
    apply emits_bind; [apply emits_session_step|]. intros ss'. apply IH.
Qed.

Lemma emits_closing_handshake (s : side) (ss : session) (traffic : list input) :
  emits (closing_handshake s ss traffic).
Proof.
  revert ss. induction traffic as [|i rest IH]; intros ss; cbn [closing_handshake].
  - apply emits_bind; [apply emits_session_step|]. intros ss'. apply emits_ret.
  - apply emits_bind; [apply emits_session_step|]. intros ss'.
    destruct (ends s i); [apply emits_ret|apply IH].
Qed.

Lemma emits_aexit (s : side) (st : session * list input) : emits (aexit s st).
Proof.
  unfold aexit. apply emits_bind; [by apply emits_emit, P_other|]. intros _ w.
  destruct (conn_of s w); [apply emits_closing_handshake|].
  exists []. by rewrite app_nil_r.
Qed.

Lemma emits_leave_session (traffic : list input) : emits (leave_session traffic).
Proof.
  unfold leave_session.
  apply emits_bind; [apply emits_aexit|]. intros st.
  apply emits_bind; [apply emits_aexit|]. intros _. apply emits_ret.
Qed.

Lemma emits_connect_and_relay (a : attempt) : emits (connect_and_relay a).
Proof.
  unfold connect_and_relay.
  apply emits_bind; [by apply emits_emit, P_other|]. intros _.
  apply emits_bind; [by apply emits_connect, P_other|]. intros _.
  apply emits_bind; [by apply emits_emit, P_other|]. intros _.
  apply emits_bind; [by apply emits_emit, P_other|]. intros _.
  apply emits_bind.
  { apply emits_try_except; [by apply emits_connect, P_other|].
    intros e w. exists [Close Laptop]. cbn [snd]. unfold close.
    rewrite trace_hang_up. split; [done|]. by apply Forall_singleton, P_other. }
  intros _.
  apply emits_bind; [by apply emits_emit, P_other|]. intros _.
  apply emits_finally; [apply emits_gather|apply emits_leave_session].
Qed.

Lemma emits_retry_later (e : exn) : emits (retry_later e).
Proof.
  unfold retry_later.
  apply emits_bind; [by apply emits_emit, P_other|]. intros _.
  apply emits_bind; [by apply emits_emit, P_other|]. intros _.
  by apply emits_sleep, P_other.
Qed.

Lemma emits_iteration (a : attempt) : emits (iteration a).
Proof.
  apply emits_try_except; [apply emits_connect_and_relay|apply emits_retry_later].
Qed.

Lemma emits_run_bridge (script : list attempt) : emits (run_bridge script).
Proof.
  induction script as [|a rest IH]; cbn [run_bridge]; [apply emits_lift|].
  apply emits_bind; [apply emits_iteration|]. intros _. exact IH.
Qed.

End TraceInvariant.

(** ** The envelopes that leave the bridge *)

Lemma translate_ext (from : side) (env1 env2 : dict) :
  env1 !! "type" = env2 !! "type" →
  env1 !! source_field from = env2 !! source_field from →
  translate from env1 = translate from env2.
Proof.
  intros Htype Hfield. destruct from; cbn [translate source_field] in *;
    by rewrite ?(type_is_ext env1 env2), Hfield.
Qed.

Lemma type_is_lookup (env : dict) (name : string) :
  type_is env name = true → env !! "type" = Some (VStr name).
Proof.
  unfold type_is. destruct (env !! "type") as [[]|]; try discriminate.
  by intros ->%bool_decide_eq_true.
Qed.

(** The outbound envelope, with its type and the type of the inbound
    envelope. *)
Lemma translate_outbound (from : side) (env out : dict) :
  translate from env = Outbound out →
  match from with
  | Laptop =>
      env !! "type" = Some (VStr "audio") ∧
      ∃ x, out = {[ "type" := VStr "unmute.input_audio_buffer.append_pcm";
                    "audio" := x; "format" := VStr "int16" ]}
  | Unmute =>
      (env !! "type" = Some (VStr "response.audio.delta") ∧
       ∃ y, out = {[ "type" := VStr "robot.voice_audio"; "audio" := y ]}) ∨
      (env !! "type" = Some (VStr "response.text.delta") ∧
       ∃ z, out = {[ "type" := VStr "robot.text"; "text" := z ]})
  end.
Proof.
  destruct from; cbn [translate].
  - destruct (type_is env "audio") eqn:Ht; [|discriminate].
    destruct (env !! "data") as [x|]; [|discriminate].
    intros [= <-]. split; [by apply type_is_lookup|by exists x].
  - destruct (type_is env "response.audio.delta") eqn:Hv.
    { destruct (env !! "delta") as [y|]; [|discriminate].
      intros [= <-]. left. split; [by apply type_is_lookup|by exists y]. }
    destruct (type_is env "response.text.delta") eqn:Ht; [|discriminate].
    destruct (env !! "delta") as [z|]; [|discriminate].
    intros [= <-]. right. split; [by apply type_is_lookup|by exists z].
Qed.

Lemma shaped_other (e : event) : call e = None → shaped e.
Proof. by destruct e. Qed.

Lemma shaped_send (from : side) (env out : dict) (accepted : bool) :
  translate from env = Outbound out →
  shaped (Send (destination from) (Json (VDict out)) accepted).
Proof.
  intros H%translate_outbound. destruct from; cbn [destination shaped].
  - destruct H as (_ & x & ->). split; [done|]. split; [done|].
    rewrite !dom_insert_L, dom_singleton_L. set_solver.
  - destruct H as [(_ & y & ->)|(_ & z & ->)]; [left|right]; (split; [done|]);
      rewrite !dom_insert_L, dom_singleton_L; set_solver.
Qed.

Lemma translate_changes_type (from : side) (env out : dict) :
  translate from env = Outbound out → out ≠ env.
Proof.
  intros H%translate_outbound Heq. subst out.
  destruct from.
  - destruct H as (Htype & x & Hout).
    rewrite Hout in Htype. vm_compute in Htype. discriminate.
  - destruct H as [(Htype & y & Hout)|(Htype & z & Hout)];
      rewrite Hout in Htype; vm_compute in Htype; discriminate.
Qed.

Lemma mapped_part_type (from : side) (env : dict) :
  mapped_part from env !! "type" = env !! "type".
Proof.
  unfold mapped_part. rewrite map_lookup_filter.
  destruct (env !! "type") as [v|]; [|done]. cbn.
  rewrite option_guard_True; [done|by left].
Qed.

Lemma mapped_part_field (from : side) (env : dict) :
  mapped_part from env !! source_field from = env !! source_field from.
Proof.
  unfold mapped_part. rewrite map_lookup_filter.
  destruct (env !! source_field from) as [v|]; [|done]. cbn.
  rewrite option_guard_True; [done|by right].
Qed.

(** C9: every call of send in a run of the bridge carries one of the
    three outbound envelopes, on its own side, with exactly the fields of
    that envelope; the frame sent is never the frame received; and the
    outcome is the one for the inbound envelope cut down to its type and
    its mapped field. *)
Theorem outbound_envelopes_shaped :
  (∀ script : list attempt, Forall shaped (trace (snd (run_bridge script boot)))) ∧
  (∀ (from : side) (inbound : list recv) (w : world),
      Forall shaped (effects (run (coroutine_of from) inbound) w)) ∧
  (∀ (from : side) (m : message) (w : world),
      Forall (fun c => c.2 ≠ m) (calls (effects (body_of from m) w))) ∧
  (∀ (from : side) (env : dict) (w : world),
      body_of from (Json (VDict env)) w =
      body_of from (Json (VDict (mapped_part from env))) w).
Proof.
  split; [|split; [|split]].
  - intros script. apply emits_trace; [|apply Forall_nil_2].
    apply emits_run_bridge; [apply shaped_other|apply shaped_send].
  - intros from inbound w. apply emits_effects.
    apply emits_run; [apply shaped_other|apply shaped_send].
  - intros from m w.
    erewrite effects_log_all by (rewrite body_world; reflexivity).
    rewrite calls_body_events.
    destruct m as [raw|v]; [apply Forall_nil_2|].
    destruct v; try apply Forall_nil_2.
    cbn [forwarded]. destruct (translate from fields) eqn:Hout; try apply Forall_nil_2.
    apply Forall_singleton. cbn [snd].
    intros [= Heq]. by apply translate_changes_type in Hout.
  - intros from env w. rewrite !body_translate.
    by rewrite (translate_ext from env (mapped_part from env))
      by (by rewrite ?mapped_part_type, ?mapped_part_field).
Qed.

(** ** The supervisor *)

Lemma retry_later_world (e : exn) (w : world) :
  retry_later e w = (Done tt, backed_off e w).
Proof.
  unfold retry_later, bind, emit, sleep, backed_off, record. cbn.
  by rewrite <- ?app_assoc.
Qed.

Lemma connect_and_relay_session (a : attempt) (w : world) :
  laptop_handshake a = None → unmute_handshake a = None →
  connect_and_relay a w =
  finally (gather (Session Running Running) (traffic a)) (leave_session (traffic a))
          (session_start w).
Proof.
  intros HL HU.
  unfold connect_and_relay, connect, bind, try_except, emit, raise, lift.
  rewrite HL, HU. cbn [fst snd]. f_equal.
  unfold session_start, laptop_connected, log_all, record. cbn.
  by rewrite <- ?app_assoc.
Qed.

Lemma connect_and_relay_laptop_fails (a : attempt) (e : exn) (w : world) :
  laptop_handshake a = Some e →
  connect_and_relay a w =
  (Raised e, log_all [connecting_to_laptop; Connect Laptop] w).
Proof.
  intros H. unfold connect_and_relay, connect, bind, emit, raise, lift.
  rewrite H. unfold log_all, record. cbn. by rewrite <- ?app_assoc.
Qed.

Lemma connect_and_relay_unmute_fails (a : attempt) (e : exn) (w : world) :
  laptop_handshake a = None → unmute_handshake a = Some e →
  connect_and_relay a w =
  (Raised e,
   close Laptop
     (log_all [LogInfo "Connected to Laptop!"; connecting_to_unmute; Connect Unmute]
        (laptop_connected w))).
Proof.
  intros HL HU.
  unfold connect_and_relay, connect, bind, try_except, emit, raise, lift.
  rewrite HL, HU. unfold laptop_connected, log_all, close, record. cbn.
  by rewrite <- ?app_assoc.
Qed.

Lemma close_closes (s : side) (w : world) :
  conn_of s (close s w) ≠ Open ∧
  (∀ s', conn_of s' w ≠ Open → conn_of s' (close s w) ≠ Open) ∧
  now (close s w) = now w ∧
  trace (close s w) = trace w ++ [Close s].
Proof.
  unfold close, hang_up.
  destruct s, w as [[|hl] [|hu] t tr]; cbn; repeat split; try done;
    intros []; cbn; done.
Qed.

Lemma iteration_outcome (a : attempt) (w : world) :
  iteration a w =
  match connect_and_relay a w with
  | (Raised e, w1) => (Done tt, backed_off e w1)
  | r => r
  end.
Proof.
  unfold iteration, try_except.
  destruct (connect_and_relay a w) as [[[]|e|] w1]; try reflexivity.
  apply retry_later_world.
Qed.

Lemma iteration_never_raises (a : attempt) (w : world) :
  fst (iteration a w) = Done tt ∨ fst (iteration a w) = Blocked.
Proof.
  rewrite iteration_outcome.
  destruct (connect_and_relay a w) as [[[]|e|] w1]; cbn; auto.
Qed.

Lemma run_bridge_never_ends (script : list attempt) (w : world) :
  fst (run_bridge script w) = Blocked.
Proof.
  revert w. induction script as [|a rest IH]; intros w; [reflexivity|].
  cbn [run_bridge]. unfold bind.
  destruct (iteration_never_raises a w) as [H|H];
    destruct (iteration a w) as [[[]|e|] w1]; cbn [fst] in H; try discriminate.
  - apply IH.
  - reflexivity.
Qed.

Lemma run_bridge_after_failure (a : attempt) (rest : list attempt) (e : exn) (w w1 : world) :
  connect_and_relay a w = (Raised e, w1) →
  run_bridge (a :: rest) w = run_bridge rest (backed_off e w1).
Proof.
  intros H. cbn [run_bridge]. unfold bind. by rewrite iteration_outcome, H.
Qed.

(** C8 (as the code has it): when a pass of the loop ends with an
    exception (the laptop or Unmute refuses the connection, or the
    session raises) the supervisor logs it and sleeps 3 seconds, and the
    next pass starts in the world after that sleep, its clock 3 seconds
    later.  Whatever the network does, run_bridge neither returns nor
    raises: it always awaits the next attempt. *)
Theorem backoff_after_failure :
  (∀ (a : attempt) (rest : list attempt) (e : exn) (w w1 : world),
      connect_and_relay a w = (Raised e, w1) →
      run_bridge (a :: rest) w = run_bridge rest (backed_off e w1) ∧
      now (backed_off e w1) = now w1 + 3 ∧
      trace (backed_off e w1) =
      trace w1 ++ [LogError "Bridge connection error: " e;
                   LogInfo "Retrying in 3 seconds...";
                   Sleep 3]) ∧
  (∀ (a : attempt) (rest : list attempt) (e : exn) (w : world),
      laptop_handshake a = Some e →
      run_bridge (a :: rest) w =
      run_bridge rest
        (World (laptop_ws w) (unmute_ws w) (now w + 3)
               (trace w ++ [connecting_to_laptop; Connect Laptop;
                            LogError "Bridge connection error: " e;
                            LogInfo "Retrying in 3 seconds...";
                            Sleep 3]))) ∧
  (∀ (a : attempt) (rest : list attempt) (e : exn) (w : world),
      laptop_handshake a = None → unmute_handshake a = Some e →
      run_bridge (a :: rest) w =
      run_bridge rest
        (World (Closed Normal) (unmute_ws w) (now w + 3)
               (trace w ++ [connecting_to_laptop; Connect Laptop;
                            LogInfo "Connected to Laptop!";
                            connecting_to_unmute; Connect Unmute;
                            Close Laptop;
                            LogError "Bridge connection error: " e;
                            LogInfo "Retrying in 3 seconds...";
                            Sleep 3]))) ∧
  (∀ (script : list attempt) (w : world), fst (run_bridge script w) = Blocked).
Proof.
  split; [|split; [|split]].
  - intros a rest e w w1 H. split; [by apply run_bridge_after_failure|done].
  - intros a rest e w H.
    rewrite (run_bridge_after_failure a rest e w _ (connect_and_relay_laptop_fails a e w H)).
    f_equal. unfold backed_off, log_all. cbn. by rewrite <- !app_assoc.
  - intros a rest e w HL HU.
    rewrite (run_bridge_after_failure a rest e w _
               (connect_and_relay_unmute_fails a e w HL HU)).
    f_equal. unfold backed_off, close, hang_up, record, laptop_connected, log_all. cbn.
    by rewrite <- !app_assoc.
  - apply run_bridge_never_ends.
Qed.

Lemma backoff_after_failure_witness :
  run_bridge [laptop_down; laptop_drops] boot =
    run_bridge [laptop_drops]
      (World (Closed Normal) (Closed Normal) 3
             [connecting_to_laptop; Connect Laptop;
              LogError "Bridge connection error: " OSError;
              LogInfo "Retrying in 3 seconds...";
              Sleep 3]) ∧
  run_bridge [unmute_rejects] boot =
    run_bridge []
      (World (Closed Normal) (Closed Normal) 3
             [connecting_to_laptop; Connect Laptop;
              LogInfo "Connected to Laptop!";
              connecting_to_unmute; Connect Unmute;
              Close Laptop;
              LogError "Bridge connection error: " InvalidHandshake;
              LogInfo "Retrying in 3 seconds...";
              Sleep 3]) ∧
  run_bridge [laptop_drops; laptop_down] boot =
    run_bridge [laptop_down]
      (World (Closed Abnormal) (Closed Normal) 3
             [connecting_to_laptop; Connect Laptop;
              LogInfo "Connected to Laptop!";
              connecting_to_unmute; Connect Unmute;
              LogInfo "Connected to Unmute! Bridge is active.";
              Close Unmute; Close Laptop;
              LogError "Bridge connection error: " ConnectionClosedError;
              LogInfo "Retrying in 3 seconds...";
              Sleep 3]).
Proof.
  destruct backoff_after_failure as (Hraised & Hlaptop & Hunmute & _).
  split; [|split].
  - apply (Hlaptop laptop_down [laptop_drops] OSError boot). reflexivity.
  - apply (Hunmute unmute_rejects [] InvalidHandshake boot); reflexivity.
  - refine (proj1 (Hraised laptop_drops [laptop_down] ConnectionClosedError boot
                           (World (Closed Abnormal) (Closed Normal) 0
                                  [connecting_to_laptop; Connect Laptop;
                                   LogInfo "Connected to Laptop!";
                                   connecting_to_unmute; Connect Unmute;
                                   LogInfo "Connected to Unmute! Bridge is active.";
                                   Close Unmute; Close Laptop]) _)).
    reflexivity.
Defined.

(** C8 fails as stated: after a session in which both peers close
    normally, both loops return, gather returns, and the next connection
    attempt follows at once: no Sleep between Close Laptop and the next
    Connect Laptop, and the clock has not moved. *)
Lemma no_backoff_after_quiet_session :
  run_bridge [quiet_session; quiet_session] boot =
  (Blocked,
   World (Closed Normal) (Closed Normal) 0
         [connecting_to_laptop; Connect Laptop;
          LogInfo "Connected to Laptop!";
          connecting_to_unmute; Connect Unmute;
          LogInfo "Connected to Unmute! Bridge is active.";
          Close Unmute; Close Laptop;
          connecting_to_laptop; Connect Laptop;
          LogInfo "Connected to Laptop!";
          connecting_to_unmute; Connect Unmute;
          LogInfo "Connected to Unmute! Bridge is active.";
          Close Unmute; Close Laptop]).
Proof. vm_compute. reflexivity. Qed.

Lemma gather_interleaved_at (frames : list (side * message)) (c : side → conn) (w : world) :
  (∀ s, conn_of s w = c s) →
  gather (Session Running Running) (map deliver frames) w =
  (Blocked,
   log_all (flat_map (fun p => body_events p.1 p.2 (c (destination p.1))) frames) w).
Proof.
  revert w. induction frames as [|[s m] frames IH]; intros w Hc; cbn [map flat_map].
  - by rewrite log_all_nil.
  - cbn [gather gather_result audio response]. unfold bind at 1.
    change (deliver (s, m)) with (Deliver s m).
    rewrite session_step_deliver.
    replace (is_running (reader_state s (Session Running Running))) with true
      by (by destruct s).
    rewrite IH by (intros s'; by rewrite conn_of_log_all).
    by rewrite log_all_app, Hc.
Qed.

Lemma gather_interleaved (frames : list (side * message)) (w : world) :
  gather (Session Running Running) (map deliver frames) w =
  (Blocked,
   log_all (flat_map (fun p => body_events p.1 p.2 (conn_of (destination p.1) w)) frames) w).
Proof. by apply (gather_interleaved_at frames (fun s => conn_of s w)). Qed.

Lemma forwarded_destination (from : side) (m : message) (c : side * message) :
  forwarded from m = Some c → c.1 = destination from.
Proof.
  destruct m as [raw|v]; [done|]. destruct v; try done.
  cbn [forwarded]. destruct (translate from fields); try done. by intros [= <-].
Qed.

Lemma calls_interleaved (s : side) (frames : list (side * message)) (c : side → conn) :
  filter (fun c => c.1 = destination s)
         (calls (flat_map (fun p => body_events p.1 p.2 (c (destination p.1))) frames)) =
  omap (forwarded s) (frames_from s frames).
Proof.
  induction frames as [|[s' m] frames IH]; [reflexivity|].
  cbn [flat_map fst snd]. rewrite calls_app, filter_app, IH, calls_body_events.
  unfold frames_from at 2. cbn [omap list_omap fst snd].
  fold (frames_from s frames).
  destruct (decide (s' = s)) as [->|Hne].
  - cbn [omap list_omap]. destruct (forwarded s m) as [c'|] eqn:Hf; [|reflexivity].
    change (option_list (Some c')) with [c']. rewrite filter_cons_True; [reflexivity|].
    by apply forwarded_destination in Hf.
  - destruct (forwarded s' m) as [c'|] eqn:Hf; [|reflexivity].
    change (option_list (Some c')) with [c']. rewrite filter_cons_False; [reflexivity|].
    apply forwarded_destination in Hf. rewrite Hf. by destruct s, s'.
Qed.

(** C7: the calls of send made by a loop are the translations of the
    frames it received, in the order it received them, with the frames
    that have no translation left out.  The same holds for each direction
    of a session, however the frames of the two directions interleave. *)
Theorem order_preserved :
  (∀ (ms : list message) (w : world),
      calls (effects (run forward_audio_to_unmute (map Frame ms)) w) =
      omap (forwarded Laptop) ms) ∧
  (∀ (ms : list message) (w : world),
      calls (effects (run forward_response_to_laptop (map Frame ms)) w) =
      omap (forwarded Unmute) ms) ∧
  (∀ (s : side) (frames : list (side * message)) (w : world),
      filter (fun c => c.1 = destination s)
             (calls (effects (gather (Session Running Running) (map deliver frames)) w)) =
      omap (forwarded s) (frames_from s frames)).
Proof.
  split; [|split].
  - intros ms w. change forward_audio_to_unmute with (coroutine_of Laptop).
    erewrite effects_log_all.
    + apply calls_flat_body_events.
    + rewrite <- (app_nil_r (map Frame ms)), run_frames. reflexivity.
  - intros ms w. change forward_response_to_laptop with (coroutine_of Unmute).
    erewrite effects_log_all.
    + apply calls_flat_body_events.
    + rewrite <- (app_nil_r (map Frame ms)), run_frames. reflexivity.
  - intros s frames w.
    erewrite effects_log_all by (rewrite gather_interleaved; reflexivity).
    apply (calls_interleaved s frames (fun s' => conn_of s' w)).
Qed.

(** * Further properties of the bridge *)

(** ** One frame in, at most one frame out *)

Lemma forwarded_recognized (from : side) (m : message) (c : side * message) :
  forwarded from m = Some c →
  ∃ (env : dict) (x : value),
    m = Json (VDict env) ∧ env !! source_field from = Some x ∧
    match from with
    | Laptop => env !! "type" = Some (VStr "audio")
    | Unmute =>
        env !! "type" = Some (VStr "response.audio.delta") ∨
        env !! "type" = Some (VStr "response.text.delta")
    end.
Proof.
  destruct m as [raw|v]; [done|]. destruct v; try done.
  cbn [forwarded]. destruct (translate from fields) as [out| |] eqn:Hout; try done.
  intros _. exists fields. destruct from; cbn [translate source_field] in *.
  - destruct (type_is fields "audio") eqn:Ht; [|done].
    destruct (fields !! "data") as [x|]; [|done].
    exists x. split; [done|]. split; [done|]. by apply type_is_lookup.
  - destruct (type_is fields "response.audio.delta") eqn:Hv.
    { destruct (fields !! "delta") as [x|]; [|done].
      exists x. split; [done|]. split; [done|]. left. by apply type_is_lookup. }
    destruct (type_is fields "response.text.delta") eqn:Ht; [|done].
    destruct (fields !! "delta") as [x|]; [|done].
    exists x. split; [done|]. split; [done|]. right. by apply type_is_lookup.
Qed.

Lemma calls_body (from : side) (m : message) (w : world) :
  calls (effects (body_of from m) w) = option_list (forwarded from m).
Proof.
  erewrite effects_log_all by (rewrite body_world; reflexivity).
  apply calls_body_events.
Qed.

(** X1: whatever the frame, the body of a loop calls send at most once;
    and it calls send only for a frame that decodes to an object with a
    type recognized on its side and with the field its mapping reads. *)
Theorem send_only_for_recognized (from : side) (m : message) (w : world) :
  (length (calls (effects (body_of from m) w)) ≤ 1)%nat ∧
  (calls (effects (body_of from m) w) ≠ [] →
   ∃ (env : dict) (x : value),
     m = Json (VDict env) ∧ env !! source_field from = Some x ∧
     match from with
     | Laptop => env !! "type" = Some (VStr "audio")
     | Unmute =>
         env !! "type" = Some (VStr "response.audio.delta") ∨
         env !! "type" = Some (VStr "response.text.delta")
     end).
Proof.
  rewrite calls_body. destruct (forwarded from m) as [c|] eqn:Hf.
  - split; [cbn; lia|]. intros _. by apply (forwarded_recognized from m c).
  - split; [cbn; lia|]. by intros [].
Qed.

Lemma send_only_for_recognized_witness :
  ∃ (env : dict) (x : value),
    Samples.audio_frame "AAAA" = Json (VDict env) ∧ env !! "data" = Some x ∧
    env !! "type" = Some (VStr "audio").
Proof.
  apply (send_only_for_recognized Laptop (Samples.audio_frame "AAAA") Samples.live).
  vm_compute. discriminate.
Defined.

(** ** What a session delivers *)

Lemma delivered_app (evs evs' : list event) :
  delivered (evs ++ evs') = delivered evs ++ delivered evs'.
Proof. apply omap_app. Qed.

Lemma delivered_body_events_open (from : side) (m : message) :
  delivered (body_events from m Open) = option_list (forwarded from m).
Proof.
  destruct m as [raw|v]; [reflexivity|]. destruct v; try reflexivity.
  cbn [body_events forwarded]. by destruct (translate from fields).
Qed.

Lemma delivered_body_events_closed (from : side) (m : message) (how : closing) :
  delivered (body_events from m (Closed how)) = [].
Proof.
  destruct m as [raw|v]; [reflexivity|]. destruct v; try reflexivity.
  cbn [body_events]. destruct (translate from fields); try reflexivity.
  by destruct how.
Qed.

Lemma delivered_to_destination (from : side) (m : message) (c : conn) :
  Forall (fun d => d.1 = destination from) (delivered (body_events from m c)).
Proof.
  destruct c as [|how].
  - rewrite delivered_body_events_open.
    destruct (forwarded from m) as [d|] eqn:Hf; [|apply Forall_nil_2].
    apply Forall_singleton. by apply (forwarded_destination from m).
  - rewrite delivered_body_events_closed. apply Forall_nil_2.
Qed.

(** X2: while both connections stay open, a session delivers every frame
    that has a translation, once, in the order of arrival, whatever the
    interleaving of the two directions: no call of send is refused. *)
Theorem lossless_while_open (frames : list (side * message)) (w : world) :
  laptop_ws w = Open → unmute_ws w = Open →
  delivered (effects (gather (Session Running Running) (map deliver frames)) w) =
  omap (fun p => forwarded p.1 p.2) frames.
Proof.
  intros HL HU.
  erewrite effects_log_all by (rewrite gather_interleaved; reflexivity).
  induction frames as [|[s m] frames IH]; [reflexivity|].
  cbn [flat_map fst snd]. rewrite delivered_app, IH.
  replace (conn_of (destination s) w) with Open by (by destruct s).
  rewrite delivered_body_events_open.
  destruct (forwarded s m) eqn:E; cbn; rewrite E; reflexivity.
Qed.

Lemma lossless_while_open_witness :
  delivered (effects (gather (Session Running Running)
                             (map deliver [(Unmute, Json (VDict (Samples.text_env "Hi")));
                                           (Laptop, Undecodable "?");
                                           (Laptop, Samples.audio_frame "AAAA")]))
                     Samples.live) =
  [(Laptop, Json (VDict {[ "type" := VStr "robot.text"; "text" := VStr "Hi" ]}));
   (Unmute, Samples.append_pcm "AAAA")].
Proof.
  apply (lossless_while_open
           [(Unmute, Json (VDict (Samples.text_env "Hi")));
            (Laptop, Undecodable "?");
            (Laptop, Samples.audio_frame "AAAA")] Samples.live); reflexivity.
Defined.

(** What [gather] leaves behind, whatever the traffic: it only appends
    events of the forwarding loops, it does not move the clock, and a
    connection that is not open stays so and accepts nothing. *)
Lemma forwarding_body_events (from : side) (m : message) (c : conn) :
  Forall forwarding_event (body_events from m c).
Proof.
  destruct m as [raw|v].
  - apply Forall_singleton. destruct from; cbn; auto.
  - destruct v; try by (apply Forall_singleton; destruct from; cbn; auto).
    cbn [body_events]. destruct (translate from fields).
    + destruct c as [|[]]; cbn [send_events];
        repeat first [apply Forall_nil_2 | apply Forall_cons_2];
        destruct from; cbn; auto.
    + apply Forall_nil_2.
    + apply Forall_singleton. destruct from; cbn; auto.
Qed.

Lemma conn_of_hang_up_closed (s s' : side) (how : closing) (w : world) :
  conn_of s w ≠ Open → conn_of s (hang_up s' how w) ≠ Open.
Proof.
  unfold hang_up. destruct s, s', w as [[|hl] [|hu] t tr]; cbn; congruence.
Qed.

Lemma now_hang_up (s : side) (how : closing) (w : world) :
  now (hang_up s how w) = now w.
Proof. unfold hang_up. by destruct s, w as [[|hl] [|hu] t tr]. Qed.

Lemma gather_over (ss : session) (r : outcome unit) (traffic : list input) (w : world) :
  gather_result ss = Some r → gather ss traffic w = (r, w).
Proof. intros H. destruct traffic; cbn [gather]; by rewrite H. Qed.

Lemma gather_deliver (ss : session) (from : side) (m : message)
      (rest : list input) (w : world) :
  gather_result ss = None →
  gather ss (Deliver from m :: rest) w =
  gather ss rest
         (if is_running (reader_state from ss)
          then log_all (body_events from m (conn_of (destination from) w)) w
          else w).
Proof.
  intros H. cbn [gather]. rewrite H. unfold bind. rewrite session_step_deliver.
  by destruct (is_running (reader_state from ss)).
Qed.

Lemma gather_hang_up (ss : session) (s : side) (how : closing)
      (rest : list input) (w : world) :
  gather_result ss = None →
  gather ss (HangUp s how :: rest) w =
  gather (if is_running (reader_state s ss) then set_reader s (ended how) ss else ss)
         rest (hang_up s how w).
Proof.
  intros H. cbn [gather]. rewrite H. unfold bind. by rewrite session_step_hang_up.
Qed.

Lemma gather_footprint (ss : session) (traffic : list input) (w : world) :
  ∃ evs : list event,
    trace (snd (gather ss traffic w)) = trace w ++ evs ∧
    now (snd (gather ss traffic w)) = now w ∧
    Forall forwarding_event evs ∧
    ∀ s, conn_of s w ≠ Open →
         conn_of s (snd (gather ss traffic w)) ≠ Open ∧
         Forall (fun d => d.1 ≠ s) (delivered evs).
Proof.
  revert ss w. induction traffic as [|i rest IH]; intros ss w.
  { exists []. rewrite app_nil_r. cbn [gather].
    destruct (gather_result ss); cbn; repeat split; auto; apply Forall_nil_2. }
  destruct (gather_result ss) as [r|] eqn:Hres.
  { exists []. rewrite app_nil_r, (gather_over ss r) by done.
    cbn. repeat split; auto; apply Forall_nil_2. }
  destruct i as [from m|s' how].
  - rewrite gather_deliver by done.
    destruct (is_running (reader_state from ss)); [|apply IH].
    set (evs0 := body_events from m (conn_of (destination from) w)).
    destruct (IH ss (log_all evs0 w)) as (evs & Htr & Hnow & Hfw & Hclosed).
    exists (evs0 ++ evs). rewrite Htr, Hnow. cbn [log_all trace now].
    rewrite app_assoc. split; [done|]. split; [done|].
    split; [apply Forall_app; split; [apply forwarding_body_events|done]|].
    intros s Hs.
    destruct (Hclosed s) as (Hc & Hd); [by rewrite conn_of_log_all|].
    split; [done|]. rewrite delivered_app. apply Forall_app. split; [|done].
    subst evs0. destruct (decide (s = destination from)) as [->|Hne].
    + destruct (conn_of (destination from) w) as [|how]; [done|].
      rewrite delivered_body_events_closed. apply Forall_nil_2.
    + eapply Forall_impl; [apply delivered_to_destination|].
      intros d Hd'. cbn in Hd'. congruence.
  - rewrite gather_hang_up by done.
    destruct (IH (if is_running (reader_state s' ss)
                  then set_reader s' (ended how) ss else ss)
                 (hang_up s' how w)) as (evs & Htr & Hnow & Hfw & Hclosed).
    exists evs. rewrite Htr, Hnow, trace_hang_up, now_hang_up.
    split; [done|]. split; [done|]. split; [done|].
    intros s Hs. apply Hclosed. by apply conn_of_hang_up_closed.
Qed.

(** X3: inside a session a connection is never reopened, and once it is
    closed nothing is delivered on it: every later call of send towards
    it is refused, whatever the traffic. *)
Theorem closed_connection_stays_closed (ss : session) (traffic : list input)
        (s : side) (w : world) :
  conn_of s w ≠ Open →
  conn_of s (snd (gather ss traffic w)) ≠ Open ∧
  Forall (fun d => d.1 ≠ s) (delivered (effects (gather ss traffic) w)).
Proof.
  intros Hs. destruct (gather_footprint ss traffic w) as (evs & Htr & _ & _ & Hclosed).
  unfold effects. rewrite Htr, drop_app_length. by apply Hclosed.
Qed.

Lemma closed_connection_stays_closed_witness :
  conn_of Unmute
    (snd (gather (Session Running Returned)
                 [Deliver Laptop (Samples.audio_frame "AAAA"); HangUp Laptop Normal]
                 Samples.unmute_gone)) ≠ Open ∧
  Forall (fun d => d.1 ≠ Unmute)
         (delivered (effects (gather (Session Running Returned)
                                     [Deliver Laptop (Samples.audio_frame "AAAA");
                                      HangUp Laptop Normal])
                             Samples.unmute_gone)).
Proof.
  apply (closed_connection_stays_closed
           (Session Running Returned)
           [Deliver Laptop (Samples.audio_frame "AAAA"); HangUp Laptop Normal]
           Unmute Samples.unmute_gone).
  discriminate.
Defined.

(** X4: the clock does not move during a session, and a session appends
    nothing but calls of send and the error lines of the two loops: no
    connection is opened or closed and nothing sleeps inside gather. *)
Theorem session_only_forwards (ss : session) (traffic : list input) (w : world) :
  now (snd (gather ss traffic w)) = now w ∧
  Forall forwarding_event (effects (gather ss traffic) w).
Proof.
  destruct (gather_footprint ss traffic w) as (evs & Htr & Hnow & Hfw & _).
  unfold effects. by rewrite Htr, drop_app_length.
Qed.

(** X5: a session in which only one side talks does what the loop of
    that side does when run alone on the same frames. *)
Theorem one_sided_session_is_the_loop (s : side) (ms : list message) (w : world) :
  snd (gather (Session Running Running) (map (Deliver s) ms) w) =
  snd (run (coroutine_of s) (map Frame ms) w).
Proof.
  rewrite <- (app_nil_r (map (Deliver s) ms)), gather_fresh_frames.
  rewrite <- (app_nil_r (map Frame ms)), run_frames. reflexivity.
Qed.

(** X6: run alone on any input, a loop changes nothing but the trace: it
    neither opens nor closes a connection and it never sleeps. *)
Theorem loop_only_appends (from : side) (inbound : list recv) (w : world) :
  laptop_ws (snd (run (coroutine_of from) inbound w)) = laptop_ws w ∧
  unmute_ws (snd (run (coroutine_of from) inbound w)) = unmute_ws w ∧
  now (snd (run (coroutine_of from) inbound w)) = now w.
Proof.
  revert w. induction inbound as [|r rest IH]; intros w; [done|].
  cbn [run]. unfold bind at 1 2 3.
  destruct r as [m|how].
  - rewrite coroutine_frame.
    destruct (IH (log_all (body_events from m (conn_of (destination from) w)) w))
      as (HL & HU & Hn).
    by rewrite HL, HU, Hn.
  - rewrite coroutine_end. by destruct how.
Qed.

(** ** Leaving a session *)

Lemma lifecycle_app (evs evs' : list event) :
  lifecycle (evs ++ evs') = lifecycle evs ++ lifecycle evs'.
Proof. apply omap_app. Qed.

Lemma failures_app (evs evs' : list event) :
  failures (evs ++ evs') = failures evs ++ failures evs'.
Proof. apply omap_app. Qed.

Lemma forwarding_no_lifecycle (evs : list event) :
  Forall forwarding_event evs → lifecycle evs = [].
Proof.
  induction 1 as [|e evs He _ IH]; [reflexivity|].
  destruct e; try done; cbn; exact IH.
Qed.

Lemma forwarding_no_failures (evs : list event) :
  Forall forwarding_event evs → failures evs = [].
Proof.
  induction 1 as [|e evs He _ IH]; [reflexivity|].
  destruct e; try done; try (cbn; exact IH).
  destruct He as [->| ->]; cbn; exact IH.
Qed.

Lemma trace_close (s : side) (w : world) : trace (close s w) = trace w ++ [Close s].
Proof. apply close_closes. Qed.

Lemma now_close (s : side) (w : world) : now (close s w) = now w.
Proof. apply close_closes. Qed.

Lemma session_step_tasks (ss : session) (i : input) (w : world) :
  fst (session_step ss i w) = Done (tasks_after ss i).
Proof.
  destruct i as [from m|s how].
  - rewrite session_step_deliver. by destruct (is_running _).
  - rewrite session_step_hang_up. cbn [fst]. f_equal.
    by destruct s, ss as [[| |ea] [| |er]].
Qed.

Lemma tasks_after_running (ss : session) (i : input) (t : side) :
  is_running (reader_state t (tasks_after ss i)) = true →
  is_running (reader_state t ss) = true.
Proof.
  destruct i as [from m|s how]; [done|].
  by destruct s, t, ss as [[| |ea] [| |er]], how.
Qed.

Lemma tasks_after_ended (ss : session) (i : input) (t : side) :
  is_running (reader_state t (tasks_after ss i)) = false →
  is_running (reader_state t ss) = false ∨ ends t i = true.
Proof.
  destruct i as [from m|s how]; [by left|].
  destruct s, t, ss as [[| |ea] [| |er]], how; cbn; auto.
Qed.

Lemma conn_of_hang_up (s : side) (how : closing) (w : world) :
  conn_of s (hang_up s how w) ≠ Open.
Proof. unfold hang_up. by destruct s, w as [[|hl] [|hu] t tr]. Qed.

(** One input, whoever is still running: it appends events of the
    forwarding loops only, opens nothing, and delivers nothing when the
    tasks that run write to closed connections. *)
Lemma session_step_footprint (ss : session) (i : input) (w : world) :
  ∃ (evs : list event) (w' : world),
    session_step ss i w = (Done (tasks_after ss i), w') ∧
    trace w' = trace w ++ evs ∧
    now w' = now w ∧
    Forall forwarding_event evs ∧
    (∀ t, conn_of t w ≠ Open → conn_of t w' ≠ Open) ∧
    (∀ t, ends t i = true → conn_of t w' ≠ Open) ∧
    (muted ss w → delivered evs = [] ∧ muted (tasks_after ss i) w').
Proof.
  pose proof (session_step_tasks ss i w) as Hval.
  destruct i as [from m|s how].
  - rewrite session_step_deliver in *.
    destruct (is_running (reader_state from ss)) eqn:Hrun.
    + eexists _, _. split; [reflexivity|]. cbn [log_all trace now tasks_after].
      split; [reflexivity|]. split; [reflexivity|].
      split; [apply forwarding_body_events|].
      split; [intros t; by rewrite conn_of_log_all|].
      split; [by intros []|].
      intros Hm. split.
      * specialize (Hm from Hrun).
        destruct (conn_of (destination from) w) as [|how]; [done|].
        apply delivered_body_events_closed.
      * intros t Ht. rewrite conn_of_log_all. by apply Hm.
    + exists [], w. rewrite app_nil_r. cbn [tasks_after].
      repeat split; auto; try apply Forall_nil_2.
  - rewrite session_step_hang_up in *. cbn [fst] in Hval.
    exists [], (hang_up s how w). rewrite app_nil_r, trace_hang_up, now_hang_up.
    split; [by rewrite Hval|].
    split; [reflexivity|]. split; [reflexivity|]. split; [apply Forall_nil_2|].
    split; [intros t; apply conn_of_hang_up_closed|].
    split.
    { intros t Ht. replace t with s by (by destruct s, t). apply conn_of_hang_up. }
    intros Hm. split; [reflexivity|].
    intros t Ht. apply conn_of_hang_up_closed, Hm.
    by apply (tasks_after_running ss (HangUp s how)).
Qed.

Lemma session_step_ended_closed (ss : session) (i : input) (w : world) :
  ended_closed ss w → ended_closed (tasks_after ss i) (snd (session_step ss i w)).
Proof.
  intros Hec t Ht.
  destruct (session_step_footprint ss i w) as (evs & w' & -> & _ & _ & _ & Hkeep & Hend & _).
  cbn [snd].
  destruct (tasks_after_ended ss i t Ht) as [H|H]; [apply Hkeep, Hec, H|by apply Hend].
Qed.

(** [unread] follows [gather]: when [gather] completes with [r], the
    tasks it leaves have the result [r], and each task that has ended has
    its connection closed. *)
Lemma gather_unread (ss : session) (traffic : list input) (w : world) :
  ended_closed ss w →
  ended_closed (unread ss traffic).1 (snd (gather ss traffic w)) ∧
  (fst (gather ss traffic w) ≠ Blocked →
   gather_result (unread ss traffic).1 = Some (fst (gather ss traffic w))).
Proof.
  revert ss w. induction traffic as [|i rest IH]; intros ss w Hec.
  { cbn [gather unread]. destruct (gather_result ss) as [r|] eqn:Hres; cbn; by rewrite ?Hres. }
  cbn [unread]. destruct (gather_result ss) as [r|] eqn:Hres.
  { rewrite (gather_over ss r) by done. cbn. by rewrite Hres. }
  cbn [gather]. rewrite Hres. unfold bind.
  pose proof (session_step_ended_closed ss i w Hec) as Hec'.
  pose proof (session_step_tasks ss i w) as Hval.
  destruct (session_step ss i w) as [o w1]. cbn [fst snd] in *. subst o.
  by apply IH.
Qed.

Lemma finished_muted (ss : session) (r : outcome unit) (w : world) :
  ended_closed ss w → gather_result ss = Some r → muted ss w.
Proof.
  intros Hec Hres t Ht. apply Hec.
  by destruct t, ss as [[| |ea] [| |er]].
Qed.

Lemma closing_handshake_footprint (s : side) (ss : session) (traffic : list input)
      (w : world) :
  ∃ (evs : list event) (st' : session * list input) (w' : world),
    closing_handshake s ss traffic w = (Done st', w') ∧
    trace w' = trace w ++ evs ∧
    now w' = now w ∧
    Forall forwarding_event evs ∧
    conn_of s w' ≠ Open ∧
    (∀ t, conn_of t w ≠ Open → conn_of t w' ≠ Open) ∧
    (traffic = [] → evs = [] ∧ st'.2 = []) ∧
    (muted ss w → delivered evs = [] ∧ muted st'.1 w').
Proof.
  revert ss w. induction traffic as [|i rest IH]; intros ss w; cbn [closing_handshake];
    unfold bind.
  - rewrite session_step_hang_up.
    assert (Hval : (if is_running (reader_state s ss)
                    then set_reader s (ended Normal) ss else ss) =
                   tasks_after ss (HangUp s Normal))
      by (by destruct s, ss as [[| |ea] [| |er]]).
    exists [], (tasks_after ss (HangUp s Normal), []), (hang_up s Normal w).
    rewrite app_nil_r, trace_hang_up, now_hang_up, Hval.
    split; [reflexivity|]. split; [reflexivity|]. split; [reflexivity|].
    split; [apply Forall_nil_2|].
    split; [apply conn_of_hang_up|].
    split; [intros t; apply conn_of_hang_up_closed|].
    split; [done|].
    intros Hm. split; [reflexivity|].
    intros t Ht. apply conn_of_hang_up_closed, Hm.
    by apply (tasks_after_running ss (HangUp s Normal)).
  - destruct (session_step_footprint ss i w)
      as (evs & w1 & -> & Htr & Hnow & Hfw & Hkeep & Hend & Hm).
    destruct (ends s i) eqn:Hi.
    + exists evs, (tasks_after ss i, rest), w1.
      split; [reflexivity|]. split; [done|]. split; [done|]. split; [done|].
      split; [by apply Hend|]. split; [done|]. split; [done|]. exact Hm.
    + destruct (IH (tasks_after ss i) w1)
        as (evs' & st' & w' & -> & Htr' & Hnow' & Hfw' & Hs & Hkeep' & _ & Hm').
      exists (evs ++ evs'), st', w'.
      split; [reflexivity|]. rewrite Htr', Htr, Hnow', Hnow, app_assoc.
      split; [done|]. split; [done|]. split; [by apply Forall_app|].
      split; [done|]. split; [intros t Ht; by apply Hkeep', Hkeep|].
      split; [done|].
      intros Hmu. destruct (Hm Hmu) as (Hd & Hmu1).
      destruct (Hm' Hmu1) as (Hd' & Hmu').
      split; [|done]. by rewrite delivered_app, Hd, Hd'.
Qed.

Lemma aexit_footprint (s : side) (st : session * list input) (w : world) :
  ∃ (evs : list event) (st' : session * list input) (w' : world),
    aexit s st w = (Done st', w') ∧
    trace w' = trace w ++ Close s :: evs ∧
    now w' = now w ∧
    Forall forwarding_event evs ∧
    conn_of s w' ≠ Open ∧
    (∀ t, conn_of t w ≠ Open → conn_of t w' ≠ Open) ∧
    (st.2 = [] → evs = [] ∧ st'.2 = []) ∧
    (muted st.1 w → delivered evs = [] ∧ muted st'.1 w').
Proof.
  unfold aexit, bind, emit.
  assert (Hconn : ∀ t, conn_of t (record (Close s) w) = conn_of t w) by (by intros []).
  destruct (conn_of s (record (Close s) w)) as [|how] eqn:Hs.
  - destruct (closing_handshake_footprint s st.1 st.2 (record (Close s) w))
      as (evs & st' & w' & -> & Htr & Hnow & Hfw & Hc & Hkeep & Hnil & Hm).
    exists evs, st', w'. split; [reflexivity|].
    rewrite Htr, Hnow. cbn [record trace now]. rewrite <- app_assoc.
    split; [done|]. split; [done|]. split; [done|]. split; [done|].
    split; [intros t Ht; apply Hkeep; by rewrite Hconn|].
    split; [done|].
    intros Hmu. apply Hm. intros t Ht. rewrite Hconn. by apply Hmu.
  - exists [], st, (record (Close s) w). split; [reflexivity|].
    split; [reflexivity|]. split; [reflexivity|]. split; [apply Forall_nil_2|].
    split; [by rewrite Hs|].
    split; [intros t Ht; by rewrite Hconn|].
    split; [done|].
    intros Hmu. split; [reflexivity|]. intros t Ht. rewrite Hconn. by apply Hmu.
Qed.

Lemma forwarding_leaving (evs : list event) :
  Forall forwarding_event evs → Forall leaving_event evs.
Proof. intros H. eapply Forall_impl; [exact H|]. intros e He. by left. Qed.

(** The way out of the session: both calls of [close()] are made,
    Unmute's first; both connections are closed at the end; the clock
    does not move, and nothing else is appended than what the tasks
    still running append. *)
Lemma leave_session_footprint (traffic : list input) (w : world) :
  ∃ (evs : list event) (w' : world),
    leave_session traffic w = (Done tt, w') ∧
    trace w' = trace w ++ evs ∧
    now w' = now w ∧
    lifecycle evs = [Close Unmute; Close Laptop] ∧
    failures evs = [] ∧
    Forall leaving_event evs ∧
    laptop_ws w' ≠ Open ∧ unmute_ws w' ≠ Open ∧
    ((unread (Session Running Running) traffic).2 = [] →
     evs = [Close Unmute; Close Laptop]) ∧
    (muted (unread (Session Running Running) traffic).1 w → delivered evs = []).
Proof.
  unfold leave_session, bind.
  destruct (aexit_footprint Unmute (unread (Session Running Running) traffic) w)
    as (evs1 & st1 & w1 & -> & Htr1 & Hnow1 & Hfw1 & Hc1 & _ & Hnil1 & Hm1).
  destruct (aexit_footprint Laptop st1 w1)
    as (evs2 & st2 & w2 & -> & Htr2 & Hnow2 & Hfw2 & Hc2 & Hkeep2 & Hnil2 & Hm2).
  exists (Close Unmute :: evs1 ++ Close Laptop :: evs2), w2.
  split; [reflexivity|].
  split; [rewrite Htr2, Htr1, <- app_assoc; reflexivity|].
  split; [by rewrite Hnow2, Hnow1|].
  split.
  { change (Close Unmute :: evs1 ++ Close Laptop :: evs2)
      with ([Close Unmute] ++ evs1 ++ [Close Laptop] ++ evs2).
    by rewrite !lifecycle_app, (forwarding_no_lifecycle evs1),
      (forwarding_no_lifecycle evs2). }
  split.
  { change (Close Unmute :: evs1 ++ Close Laptop :: evs2)
      with ([Close Unmute] ++ evs1 ++ [Close Laptop] ++ evs2).
    by rewrite !failures_app, (forwarding_no_failures evs1),
      (forwarding_no_failures evs2). }
  split.
  { apply Forall_cons_2; [right; by left|].
    apply Forall_app. split; [by apply forwarding_leaving|].
    apply Forall_cons_2; [right; by right|]. by apply forwarding_leaving. }
  split; [exact Hc2|].
  split; [exact (Hkeep2 Unmute Hc1)|].
  split.
  { intros Hnil. destruct (Hnil1 Hnil) as (-> & Hnil').
    by destruct (Hnil2 Hnil') as (-> & _). }
  intros Hmu. destruct (Hm1 Hmu) as (Hd1 & Hmu1). destruct (Hm2 Hmu1) as (Hd2 & _).
  change (Close Unmute :: evs1 ++ Close Laptop :: evs2)
    with ([Close Unmute] ++ evs1 ++ [Close Laptop] ++ evs2).
  by rewrite !delivered_app, Hd1, Hd2.
Qed.






Lemma session_start_conn (s : side) (w : world) : conn_of s (session_start w) = Open.
Proof. by destruct s. Qed.

(** What follows [gather] in a pass of the loop. *)
Lemma session_leaves (a : attempt) (w w2 : world) (r : outcome unit) :
  laptop_handshake a = None → unmute_handshake a = None →
  gather (Session Running Running) (traffic a) (session_start w) = (r, w2) →
  r ≠ Blocked →
  ∃ (w3 : world) (evs : list event),
    connect_and_relay a w = (r, w3) ∧
    trace w3 = trace w2 ++ evs ∧
    now w3 = now w2 ∧
    lifecycle evs = [Close Unmute; Close Laptop] ∧
    failures evs = [] ∧
    Forall leaving_event evs ∧
    delivered evs = [] ∧
    laptop_ws w3 ≠ Open ∧ unmute_ws w3 ≠ Open ∧
    ((unread (Session Running Running) (traffic a)).2 = [] →
     evs = [Close Unmute; Close Laptop]).
Proof.
  intros HL HU Hg Hr.
  rewrite connect_and_relay_session by done. unfold finally. rewrite Hg.
  destruct (gather_unread (Session Running Running) (traffic a) (session_start w))
    as (Hec & Hres).
  { intros t Ht. by destruct t. }
  rewrite Hg in Hec, Hres. cbn [fst snd] in Hec, Hres. specialize (Hres Hr).
  pose proof (finished_muted _ _ _ Hec Hres) as Hmu.
  destruct (leave_session_footprint (traffic a) w2)
    as (evs & w3 & -> & Htr & Hnow & Hlc & Hfl & Hlv & HcL & HcU & Hnil & Hd).
  exists w3, evs.
  split; [by destruct r as [[]|e|]|]. auto 12.
Qed.












(** ** Accounting over the passes of the supervisor *)

(** One pass of the loop, in full: what it appends, which connections it
    opens and closes, and what it does to the clock. *)
Lemma iteration_footprint (a : attempt) (w : world) :
  ∃ evs : list event,
    trace (snd (iteration a w)) = trace w ++ evs ∧
    lifecycle evs = pass_lifecycle a (fst (iteration a w)) ∧
    failures evs =
      match fst (connect_and_relay a w) with
      | Raised e => [e]
      | _ => []
      end ∧
    now (snd (iteration a w)) = now w + 3 * Z.of_nat (length (failures evs)).
Proof.
  rewrite iteration_outcome. unfold pass_lifecycle.
  destruct (laptop_handshake a) as [e|] eqn:Hl.
  { rewrite (connect_and_relay_laptop_fails a e w Hl).
    exists [connecting_to_laptop; Connect Laptop;
            LogError "Bridge connection error: " e;
            LogInfo "Retrying in 3 seconds..."; Sleep 3].
    cbn [fst snd backed_off log_all trace now]. rewrite <- app_assoc.
    change (failures _) with [e]. cbn [length]. repeat split; lia. }
  destruct (unmute_handshake a) as [e|] eqn:Hu.
  { rewrite (connect_and_relay_unmute_fails a e w Hl Hu).
    exists [connecting_to_laptop; Connect Laptop;
            LogInfo "Connected to Laptop!";
            connecting_to_unmute; Connect Unmute;
            Close Laptop;
            LogError "Bridge connection error: " e;
            LogInfo "Retrying in 3 seconds..."; Sleep 3].
    cbn [fst snd backed_off trace now]. rewrite trace_close, now_close.
    unfold laptop_connected. cbn [log_all trace now].
    rewrite !trace_set_conn. cbn [log_all trace now set_conn]. rewrite <- !app_assoc.
    change (failures _) with [e]. cbn [length].
    split; [reflexivity|]. split; [reflexivity|]. split; [reflexivity|].
    destruct w; cbn; lia. }
  destruct (gather_footprint (Session Running Running) (traffic a) (session_start w))
    as (evs & Htr & Hnow & Hfw & _).
  assert (Hstart : trace (session_start w) =
                   trace w ++ [connecting_to_laptop; Connect Laptop;
                               LogInfo "Connected to Laptop!";
                               connecting_to_unmute; Connect Unmute;
                               LogInfo "Connected to Unmute! Bridge is active."]).
  { unfold session_start, laptop_connected. cbn [log_all trace].
    rewrite !trace_set_conn. cbn [log_all trace]. rewrite !trace_set_conn.
    cbn [log_all trace]. by rewrite <- !app_assoc. }
  assert (Hnow0 : now (session_start w) = now w) by (by destruct w).
  pose proof (forwarding_no_lifecycle evs Hfw) as Hlc.
  pose proof (forwarding_no_failures evs Hfw) as Hfl.
  destruct (gather (Session Running Running) (traffic a) (session_start w))
    as [r w2] eqn:Hg.
  cbn [snd] in Htr, Hnow.
  destruct r as [[]|e|].
  - destruct (session_leaves a w w2 (Done tt) Hl Hu Hg)
      as (w3 & evs' & -> & Htr' & Hnow' & Hlc' & Hfl' & _); [done|].
    cbn [fst snd].
    exists ([connecting_to_laptop; Connect Laptop;
             LogInfo "Connected to Laptop!";
             connecting_to_unmute; Connect Unmute;
             LogInfo "Connected to Unmute! Bridge is active."] ++ evs ++ evs').
    rewrite Htr', Hnow', Htr, Hstart, Hnow, Hnow0.
    rewrite !lifecycle_app, !failures_app, Hlc, Hfl, Hlc', Hfl', <- !app_assoc.
    split; [reflexivity|]. split; [reflexivity|]. split; [reflexivity|]. cbn. lia.
  - destruct (session_leaves a w w2 (Raised e) Hl Hu Hg)
      as (w3 & evs' & -> & Htr' & Hnow' & Hlc' & Hfl' & _); [done|].
    cbn [fst snd backed_off trace now].
    exists ([connecting_to_laptop; Connect Laptop;
             LogInfo "Connected to Laptop!";
             connecting_to_unmute; Connect Unmute;
             LogInfo "Connected to Unmute! Bridge is active."] ++ evs ++ evs' ++
            [LogError "Bridge connection error: " e;
             LogInfo "Retrying in 3 seconds..."; Sleep 3]).
    rewrite Htr', Hnow', Htr, Hstart, Hnow, Hnow0.
    rewrite !lifecycle_app, !failures_app, Hlc, Hfl, Hlc', Hfl', <- !app_assoc.
    change (failures [LogError _ e; _; _]) with [e].
    split; [reflexivity|]. split; [reflexivity|]. split; [reflexivity|]. cbn. lia.
  - rewrite (connect_and_relay_session a w Hl Hu). unfold finally. rewrite Hg.
    cbn [fst snd].
    exists ([connecting_to_laptop; Connect Laptop;
             LogInfo "Connected to Laptop!";
             connecting_to_unmute; Connect Unmute;
             LogInfo "Connected to Unmute! Bridge is active."] ++ evs).
    rewrite Htr, Hstart, Hnow, Hnow0.
    rewrite !lifecycle_app, !failures_app, Hlc, Hfl, <- !app_assoc.
    split; [reflexivity|]. split; [by rewrite app_nil_r|].
    split; [reflexivity|]. cbn. lia.
Qed.

Lemma effects_of_trace {A} (m : M A) (w : world) (evs : list event) :
  trace (snd (m w)) = trace w ++ evs → effects m w = evs.
Proof. intros H. unfold effects. by rewrite H, drop_app_length. Qed.

(** X7: every pass of run_bridge connects to the laptop first and to
    Unmute only once the laptop has accepted; a pass that ends has closed
    every connection it opened, Unmute's before the laptop's; a pass that
    is still relaying has closed none. *)
Theorem connections_closed_in_reverse_order (a : attempt) (w : world) :
  lifecycle (effects (iteration a) w) = pass_lifecycle a (fst (iteration a w)).
Proof.
  destruct (iteration_footprint a w) as (evs & Htr & Hlc & _).
  by rewrite (effects_of_trace _ _ _ Htr).
Qed.

Lemma run_bridge_footprint (script : list attempt) (w : world) :
  ∃ evs : list event,
    trace (snd (run_bridge script w)) = trace w ++ evs ∧
    (length (failures evs) ≤ length script)%nat ∧
    now (snd (run_bridge script w)) = now w + 3 * Z.of_nat (length (failures evs)).
Proof.
  revert w. induction script as [|a rest IH]; intros w.
  { exists []. rewrite app_nil_r. cbn. split; [done|]. split; [lia|lia]. }
  cbn [run_bridge]. unfold bind.
  destruct (iteration_footprint a w) as (evs & Htr & _ & Hfl & Hnow).
  assert (Hone : (length (failures evs) ≤ 1)%nat).
  { rewrite Hfl. destruct (fst (connect_and_relay a w)); cbn; lia. }
  destruct (iteration a w) as [[[]|e|] w1]; cbn [fst snd] in *.
  - destruct (IH w1) as (evs' & Htr' & Hlen' & Hnow').
    exists (evs ++ evs'). rewrite Htr', Htr, Hnow', Hnow, app_assoc, failures_app, length_app.
    split; [done|]. split; [cbn [length]; lia|lia].
  - exists evs. split; [done|]. split; [cbn [length]; lia|done].
  - exists evs. split; [done|]. split; [cbn [length]; lia|done].
Qed.

(** X8: over any run of run_bridge the clock advances by exactly 3
    seconds for each error logged by its except clause, and at most one
    such error is logged per pass of the loop. *)
Theorem three_seconds_per_failure (script : list attempt) (w : world) :
  now (snd (run_bridge script w)) =
  now w + 3 * Z.of_nat (length (failures (effects (run_bridge script) w))) ∧
  (length (failures (effects (run_bridge script) w)) ≤ length script)%nat.
Proof.
  destruct (run_bridge_footprint script w) as (evs & Htr & Hlen & Hnow).
  by rewrite (effects_of_trace _ _ _ Htr).
Qed.

(** ** What ends a session, and what does not *)

(** X12: no frame that the iterator of a connection yields to its loop
    ends a session, whatever the frame contains and however the two
    directions interleave: as long as no connection closes, gather keeps
    waiting, both connections stay as they were and the clock does not
    move.  (A frame that the websockets library refuses, such as one over
    the default max_size, is not yielded: it ends the connection.) *)
Theorem frames_never_end_a_session (frames : list (side * message)) (w : world) :
  fst (gather (Session Running Running) (map deliver frames) w) = Blocked ∧
  laptop_ws (snd (gather (Session Running Running) (map deliver frames) w)) = laptop_ws w ∧
  unmute_ws (snd (gather (Session Running Running) (map deliver frames) w)) = unmute_ws w ∧
  now (snd (gather (Session Running Running) (map deliver frames) w)) = now w.
Proof. by rewrite gather_interleaved. Qed.

Lemma gather_ends (ss : session) (traffic : list input) (w : world) :
  (is_running (audio ss) = false ∨ closes Laptop traffic = true) →
  (is_running (response ss) = false ∨ closes Unmute traffic = true) →
  fst (gather ss traffic w) ≠ Blocked.
Proof.
  revert ss w. induction traffic as [|i rest IH]; intros ss w Ha Hr.
  { destruct Ha as [Ha|Ha]; [|done]. destruct Hr as [Hr|Hr]; [|done].
    destruct ss as [[| |ea] [| |er]]; try done. }
  destruct (gather_result ss) as [r|] eqn:Hres.
  { rewrite (gather_over ss r) by done. cbn.
    destruct ss as [[| |ea] [| |er]]; cbn in Hres; by simplify_eq. }
  destruct i as [from m|s how].
  - rewrite gather_deliver by done. apply IH.
    + destruct Ha as [Ha|Ha]; [by left|by right].
    + destruct Hr as [Hr|Hr]; [by left|by right].
  - rewrite gather_hang_up by done. apply IH.
    + destruct s, ss as [[| |ea] [| |er]], how; cbn in *; auto;
        destruct Ha as [Ha|Ha]; auto.
    + destruct s, ss as [[| |ea] [| |er]], how; cbn in *; auto;
        destruct Hr as [Hr|Hr]; auto.
Qed.

(** X13: once both connections have closed, in whatever manner and
    order, the session is over: gather has returned or raised. *)
Theorem session_ends_when_both_close (traffic : list input) (w : world) :
  closes Laptop traffic = true → closes Unmute traffic = true →
  fst (gather (Session Running Running) traffic w) ≠ Blocked.
Proof. intros HL HU. apply gather_ends; by right. Qed.

Lemma session_ends_when_both_close_witness :
  fst (gather (Session Running Running)
              [Deliver Laptop (Samples.audio_frame "AAAA");
               HangUp Unmute Normal;
               Deliver Laptop (Samples.audio_frame "BBBB");
               HangUp Laptop Normal;
               Deliver Unmute (Undecodable "late")]
              Samples.live) ≠ Blocked.
Proof.
  apply (session_ends_when_both_close
           [Deliver Laptop (Samples.audio_frame "AAAA");
            HangUp Unmute Normal;
            Deliver Laptop (Samples.audio_frame "BBBB");
            HangUp Laptop Normal;
            Deliver Unmute (Undecodable "late")] Samples.live); reflexivity.
Defined.

Lemma iteration_completes (a : attempt) (w : world) :
  settles a = true → fst (iteration a w) = Done tt.
Proof.
  unfold settles. rewrite iteration_outcome.
  destruct (laptop_handshake a) as [e|] eqn:Hl.
  { by rewrite (connect_and_relay_laptop_fails a e w Hl). }
  destruct (unmute_handshake a) as [e|] eqn:Hu.
  { by rewrite (connect_and_relay_unmute_fails a e w Hl Hu). }
  intros [HL HU]%andb_true_iff.
  assert (Hend : fst (gather (Session Running Running) (traffic a) (session_start w))
                 ≠ Blocked) by (apply gather_ends; by right).
  destruct (gather (Session Running Running) (traffic a) (session_start w))
    as [r w2] eqn:Hg.
  cbn [fst] in Hend.
  destruct (session_leaves a w w2 r Hl Hu Hg Hend) as (w3 & evs & -> & _).
  by destruct r as [[]|e|].
Qed.

Lemma laptop_attempts_app (evs evs' : list event) :
  laptop_attempts (evs ++ evs') = (laptop_attempts evs + laptop_attempts evs')%nat.
Proof. unfold laptop_attempts. by rewrite omap_app, length_app. Qed.

Lemma laptop_attempts_lifecycle (evs : list event) :
  laptop_attempts (lifecycle evs) = laptop_attempts evs.
Proof.
  unfold laptop_attempts, lifecycle.
  induction evs as [|e evs IH]; [done|].
  destruct e as [[]|[]| | | |]; cbn in *; by rewrite ?IH.
Qed.

Lemma one_attempt_in_a_pass (a : attempt) (w : world) :
  ∃ evs : list event,
    trace (snd (iteration a w)) = trace w ++ evs ∧ laptop_attempts evs = 1%nat.
Proof.
  destruct (iteration_footprint a w) as (evs & Htr & Hlc & _).
  exists evs. split; [done|].
  rewrite <- laptop_attempts_lifecycle, Hlc. unfold pass_lifecycle.
  destruct (laptop_handshake a), (unmute_handshake a); try done.
  by destruct (fst (iteration a w)).
Qed.

Lemma run_bridge_attempts (script : list attempt) (w : world) :
  ∃ evs : list event,
    trace (snd (run_bridge script w)) = trace w ++ evs ∧
    (laptop_attempts evs ≤ length script)%nat ∧
    (forallb settles script = true → laptop_attempts evs = length script).
Proof.
  revert w. induction script as [|a rest IH]; intros w.
  { exists []. rewrite app_nil_r. by cbn. }
  cbn [run_bridge forallb length]. unfold bind.
  destruct (one_attempt_in_a_pass a w) as (evs & Htr & Hone).
  pose proof (iteration_completes a w) as Hdone.
  destruct (iteration a w) as [[[]|e|] w1]; cbn [fst snd] in *.
  - destruct (IH w1) as (evs' & Htr' & Hle & Heq).
    exists (evs ++ evs'). rewrite Htr', Htr, app_assoc, laptop_attempts_app, Hone.
    split; [done|]. split; [lia|].
    intros [_ Hrest]%andb_true_iff. by rewrite Heq.
  - exists evs. rewrite Hone. split; [done|]. split; [lia|].
    intros [Ha _]%andb_true_iff. by specialize (Hdone Ha).
  - exists evs. rewrite Hone. split; [done|]. split; [lia|].
    intros [Ha _]%andb_true_iff. by specialize (Hdone Ha).
Qed.

(** X14: run_bridge makes at most one connection attempt to the laptop
    per pass of its loop; and when in every pass a handshake is refused
    or both connections end up closed, no pass hangs: every pass of the
    script is reached and makes exactly one attempt. *)
Theorem one_attempt_per_pass (script : list attempt) (w : world) :
  (laptop_attempts (effects (run_bridge script) w) ≤ length script)%nat ∧
  (forallb settles script = true →
   laptop_attempts (effects (run_bridge script) w) = length script).
Proof.
  destruct (run_bridge_attempts script w) as (evs & Htr & Hle & Heq).
  by rewrite (effects_of_trace _ _ _ Htr).
Qed.

Lemma one_attempt_per_pass_witness :
  laptop_attempts (effects (run_bridge [quiet_session; laptop_down; quiet_session]) boot) = 3%nat.
Proof.
  apply (one_attempt_per_pass [quiet_session; laptop_down; quiet_session] boot).
  reflexivity.
Defined.

(** * Properties of the prompt builder *)

Section PromptProperties.

Import Stdlib.Strings.Ascii.

Lemma replace_length (old new : Ascii.ascii) (s : string) :
  String.length (Prompt.replace old new s) = String.length s.
Proof. induction s as [|c s IH]; cbn; [done|by rewrite IH]. Qed.

Lemma replace_get (old new : Ascii.ascii) (s : string) (i : nat) :
  String.get i (Prompt.replace old new s) =
  (fun c => if Ascii.eqb c old then new else c) <$> String.get i s.
Proof.
  revert i. induction s as [|c s IH]; intros i; [done|].
  destruct i; cbn; [done|apply IH].
Qed.

Lemma spaced_twice (c : Ascii.ascii) :
  (if Ascii.eqb (if Ascii.eqb c "-" then " "%char else c) "_" then " "%char
   else (if Ascii.eqb c "-" then " "%char else c)) = Prompt.spaced c.
Proof.
  unfold Prompt.spaced. destruct (Ascii.eqb c "-") eqn:H; [done|done].
Qed.

Lemma spaced_clean (c : Ascii.ascii) : Prompt.spaced c ≠ "-"%char ∧ Prompt.spaced c ≠ "_"%char.
Proof.
  unfold Prompt.spaced.
  destruct (Ascii.eqb c "-") eqn:H1; [split; discriminate|].
  destruct (Ascii.eqb c "_") eqn:H2; [split; discriminate|].
  apply Ascii.eqb_neq in H1, H2. done.
Qed.

Lemma readable_idempotent (model : string) :
  Prompt.replace "_" " " (Prompt.replace "-" " "
    (Prompt.replace "_" " " (Prompt.replace "-" " " model))) =
  Prompt.replace "_" " " (Prompt.replace "-" " " model).
Proof.
  induction model as [|c s IH]; [done|].
  cbn [Prompt.replace]. rewrite IH. f_equal.
  destruct (Ascii.eqb c "-") eqn:H1; [done|].
  destruct (Ascii.eqb c "_") eqn:H2; [done|].
  by rewrite H1, H2.
Qed.

(** X9: when autoselect_model returns a name, get_readable_llm_name
    returns a name of the same length in which every hyphen and every
    underscore has become a space and every other character is as it
    was, so the result holds neither; when autoselect_model raises, so
    does get_readable_llm_name. *)
Theorem readable_name_has_spaces (model : string) :
  ∃ readable : string,
    Prompt.get_readable_llm_name (Done model) = Done readable ∧
    String.length readable = String.length model ∧
    (∀ i, String.get i readable = Prompt.spaced <$> String.get i model) ∧
    (∀ i c, String.get i readable = Some c → c ≠ "-"%char ∧ c ≠ "_"%char) ∧
    Prompt.get_readable_llm_name (Done readable) = Done readable ∧
    ∀ e, Prompt.get_readable_llm_name (Raised e) = Raised e.
Proof.
  eexists. split; [reflexivity|].
  assert (Hget : ∀ i, String.get i (Prompt.replace "_" " " (Prompt.replace "-" " " model)) =
                      Prompt.spaced <$> String.get i model).
  { intros i. rewrite !replace_get. destruct (String.get i model) as [c|]; [|done].
    cbn. f_equal. apply spaced_twice. }
  split; [by rewrite !replace_length|].
  split; [exact Hget|].
  split.
  { intros i c. rewrite Hget. destruct (String.get i model) as [c0|]; [|done].
    intros [= <-]. apply spaced_clean. }
  split; [|done].
  cbn. f_equal. apply readable_idempotent.
Qed.

(** [str.format] reads only the keyword arguments its fields name. *)
Lemma render_agree (kwargs1 kwargs2 : gmap string string) (t : Prompt.template) :
  (∀ name, name ∈ Prompt.holes t → kwargs1 !! name = kwargs2 !! name) →
  Prompt.render kwargs1 t = Prompt.render kwargs2 t.
Proof.
  induction t as [|e|c rest IH|name rest IH]; intros Hagree; cbn; try done.
  - by rewrite IH.
  - rewrite <- (Hagree name) by (cbn; set_solver).
    destruct (kwargs1 !! name); [|done].
    rewrite IH; [done|]. intros n Hn. apply Hagree. cbn. set_solver.
Qed.

Lemma template_holes :
  Prompt.holes (Prompt.parse Prompt.Text Prompt._SYSTEM_PROMPT_TEMPLATE) =
  ["_SYSTEM_PROMPT_BASICS"; "additional_instructions"].
Proof. vm_compute. reflexivity. Qed.

Lemma language_instructions_found (l : option Prompt.LanguageCode) :
  ∃ language_instructions : string,
    Prompt.LANGUAGE_CODE_TO_INSTRUCTIONS !! (Prompt.code <$> l) = Some language_instructions.
Proof. destruct l as [[]|]; eexists; vm_compute; reflexivity. Qed.

Lemma additional_instructions_formatted :
  ∃ additional_instructions : string,
    Prompt.format Prompt._ROBOT_PLANNER_INSTRUCTIONS
                  {[ "DIRECTIVES" := Prompt._ROBOT_PLANNER_DIRECTIVES;
                     "SEMANTIC_MAP" := Prompt._ROBOT_PLANNER_SEMANTIC_MAP ]} =
    Prompt.Formatted additional_instructions.
Proof. eexists. vm_compute. reflexivity. Qed.

Lemma make_system_prompt_any (self : Prompt.RobotPlannerInstructions) (name : string) :
  Prompt.make_system_prompt self (Done name) =
  Prompt.make_system_prompt Prompt.get_default_instructions (Done EmptyString).
Proof.
  unfold Prompt.make_system_prompt.
  destruct (Prompt.format Prompt._ROBOT_PLANNER_INSTRUCTIONS _) as [ai|e]; [|done].
  destruct (language_instructions_found (Prompt.language self)) as (li & ->).
  destruct (language_instructions_found
              (Prompt.language Prompt.get_default_instructions)) as (li0 & ->).
  cbn [Prompt.get_readable_llm_name]. unfold Prompt.format.
  erewrite render_agree; [reflexivity|].
  rewrite template_holes. intros n Hn.
  apply list_elem_of_In in Hn. cbn in Hn.
  destruct Hn as [<-|[<-|[]]]; vm_compute; reflexivity.
Qed.

(** X10: the system prompt is the same text for every language setting
    and every model name: the template has no field for the language
    instructions or for the model name, so the two values are computed
    and then left out.  The model still matters in one way: when
    autoselect_model raises, make_system_prompt raises that exception. *)
Theorem prompt_ignores_language_and_model :
  (∀ (self1 self2 : Prompt.RobotPlannerInstructions) (name1 name2 : string),
      Prompt.make_system_prompt self1 (Done name1) =
      Prompt.make_system_prompt self2 (Done name2)) ∧
  (∀ (self : Prompt.RobotPlannerInstructions) (name : string),
      ∃ p, Prompt.make_system_prompt self (Done name) = Prompt.Prompt p) ∧
  (∀ (self : Prompt.RobotPlannerInstructions) (e : exn),
      Prompt.make_system_prompt self (Raised e) =
      Prompt.Fails (Prompt.ModelSelection e)).
Proof.
  split; [|split].
  - intros self1 self2 name1 name2.
    by rewrite (make_system_prompt_any self1), (make_system_prompt_any self2).
  - intros self name. rewrite make_system_prompt_any.
    eexists. vm_compute. reflexivity.
  - intros self e. unfold Prompt.make_system_prompt.
    destruct additional_instructions_formatted as (ai & ->).
    by destruct (language_instructions_found (Prompt.language self)) as (li & ->).
Qed.

(** X11: the system prompt holds the basics, the directives and the
    semantic map of the source word for word, in that order: format
    inserts them as they are, the braces of the semantic map included. *)
Theorem prompt_holds_its_parts (self : Prompt.RobotPlannerInstructions) (name : string) :
  ∃ (p : string) (i j k : nat),
    Prompt.make_system_prompt self (Done name) = Prompt.Prompt p ∧
    Prompt.occurs_at i Prompt._SYSTEM_PROMPT_BASICS p ∧
    Prompt.occurs_at j Prompt._ROBOT_PLANNER_DIRECTIVES p ∧
    Prompt.occurs_at k Prompt._ROBOT_PLANNER_SEMANTIC_MAP p ∧
    (i + String.length Prompt._SYSTEM_PROMPT_BASICS ≤ j)%nat ∧
    (j + String.length Prompt._ROBOT_PLANNER_DIRECTIVES ≤ k)%nat.
Proof.
  rewrite make_system_prompt_any.
  eexists. exists 10%nat, 960%nat, (N.to_nat 5008).
  split; [vm_compute; reflexivity|].
  split; [vm_compute; reflexivity|].
  split; [vm_compute; reflexivity|].
  split; [vm_compute; reflexivity|].
  split; apply Nat.leb_le; vm_compute; reflexivity.
Qed.

End PromptProperties.
